(** * custom_evaluator: reconciliation of externally produced model outputs

    A shallow embedding of [lcb_runner/runner/custom_evaluator.py]:
    [clean_code_output], [is_valid_python] and [main].

    Python values are modelled as the interpreter has them: a [str] is a
    sequence of code points, a JSON document is a tree of lists, dicts,
    strings and numbers, an exception is a value of [exn] carried by the
    [result] monad.  What belongs to CPython and not to this repository
    (the parser behind [ast.parse], [str()] of a value that is not a
    string, [int()] of a string) and what belongs to other modules of the
    repository (the benchmark, the scenario router, the path resolver) is
    taken as a parameter. *)

From Stdlib Require Import String Ascii Bool Lia NArith ZArith.
From Stdlib Require Import List Permutation Sorted.
Import ListNotations.
Open Scope string_scope.
Open Scope list_scope.

Set Implicit Arguments.
Set Warnings "-register-all".

(** ** Python strings *)

Module Py.

(** A character is a Unicode code point; a string is a sequence of them. *)
Definition char := N.
Definition str := list char.

(** An ASCII literal as a Python string. *)
Definition lit (s : string) : str := map N_of_ascii (list_ascii_of_string s).

(** The line feed, written [\n] in the source. *)
Definition nl : char := 10%N.

(** [str.isspace] on one character: the code points CPython lists in
    [_PyUnicode_IsWhitespace]. *)
Definition isspace (c : char) : bool :=
  ((9 <=? c) && (c <=? 13) || (28 <=? c) && (c <=? 32)
   || (c =? 133) || (c =? 160) || (c =? 5760)
   || (8192 <=? c) && (c <=? 8202)
   || (c =? 8232) || (c =? 8233) || (c =? 8239) || (c =? 8287)
   || (c =? 12288))%N.

Fixpoint lstrip (s : str) : str :=
  match s with
  | c :: s' => if isspace c then lstrip s' else s
  | [] => []
  end.

Definition rstrip (s : str) : str := rev (lstrip (rev s)).

(** [s.strip()] *)
Definition strip (s : str) : str := rstrip (lstrip s).

(** [s.startswith(p)] *)
Fixpoint startswith (p s : str) : bool :=
  match p, s with
  | [], _ => true
  | _ :: _, [] => false
  | a :: p', b :: s' => (a =? b)%N && startswith p' s'
  end.

(** The positions at which [sub] occurs in [s], overlapping ones included,
    counted from [i]. *)
Fixpoint occurrences_from (i : nat) (sub s : str) : list nat :=
  match s with
  | [] => if startswith sub [] then [i] else []
  | _ :: s' =>
      if startswith sub s then i :: occurrences_from (S i) sub s'
      else occurrences_from (S i) sub s'
  end.

Definition occurrences (sub s : str) : list nat := occurrences_from 0 sub s.

(** [s.find(sub)], with [None] for -1. *)
Definition find (sub s : str) : option nat := hd_error (occurrences sub s).

(** [s[:-n]] for a positive [n]: everything but the last [n] characters,
    and the empty string when [s] is shorter than [n]. *)
Definition drop_last (n : nat) (s : str) : str := firstn (length s - n) s.

(** [s.replace(old, new)]: the occurrences of [old] are replaced from left
    to right, without overlap.  [skip] counts the characters of an
    occurrence that is being skipped. *)
Fixpoint replace_from (skip : nat) (old new s : str) : str :=
  match s with
  | [] => []
  | c :: s' =>
      match skip with
      | S k => replace_from k old new s'
      | O =>
          if startswith old s
          then new ++ replace_from (length old - 1) old new s'
          else c :: replace_from 0 old new s'
      end
  end.

Definition replace (old new s : str) : str :=
  match old with
  | [] => new ++ flat_map (fun c => c :: new) s
  | _ :: _ => replace_from 0 old new s
  end.

(** [s.split(sep)] for a separator of one character. *)
Fixpoint split (sep : char) (s : str) : list str :=
  match s with
  | [] => [[]]
  | c :: s' =>
      if (c =? sep)%N then [] :: split sep s'
      else match split sep s' with
           | seg :: segs => (c :: seg) :: segs
           | [] => [[c]]
           end
  end.

(** [a < b] on strings: lexicographic on code points. *)
Fixpoint str_ltb (a b : str) : bool :=
  match a, b with
  | _, [] => false
  | [], _ :: _ => true
  | x :: a', y :: b' => (x <? y)%N || (x =? y)%N && str_ltb a' b'
  end.

(** [a == b] on strings. *)
Fixpoint str_eqb (a b : str) : bool :=
  match a, b with
  | [], [] => true
  | x :: a', y :: b' => (x =? y)%N && str_eqb a' b'
  | _, _ => false
  end.

End Py.
Import Py.

(** ** The code sanitizer *)

(** The two literal parts of the pattern [```python\n(.*?)\n```]. *)
Definition fence_open : str := lit "```python" ++ [nl].
Definition fence_close : str := nl :: lit "```".

(** [(.*?)] followed by [\n```], tried at the current position: the group
    grows by one character at a time (any character: the pattern is compiled
    with [re.DOTALL]) until the closing literal follows. *)
Fixpoint lazy_group (s : str) : option str :=
  if startswith fence_close s then Some []
  else match s with
       | [] => None
       | c :: s' => option_map (cons c) (lazy_group s')
       end.

(** The whole pattern anchored at the start of [s]; the result is group 1. *)
Definition match_here (s : str) : option str :=
  if startswith fence_open s then lazy_group (skipn (length fence_open) s)
  else None.

(** [re.search(r"```python\n(.*?)\n```", code, re.DOTALL)]: the start
    positions are tried from left to right; the result is [match.group(1)]. *)
Fixpoint re_search (code : str) : option str :=
  match match_here code with
  | Some g => Some g
  | None => match code with
            | [] => None
            | _ :: code' => re_search code'
            end
  end.

Definition clean_code_output (code : str) : str :=
  let code := match re_search code with
              | Some group1 => group1
              | None => code
              end in
  strip code.

(** ** Exceptions and results *)

(** The exceptions this program can meet.  [SyntaxError] stands for the
    class with its subclasses ([IndentationError], [TabError]), which
    [except SyntaxError] catches alike. *)
Inductive exn : Type :=
| AssertionError
| IndexError
| KeyError (key : str)
| TypeError
| ValueError
| AttributeError
| SyntaxError
| RecursionError
| MemoryError.

(** A computation returns a value or raises. *)
Inductive result (A : Type) : Type :=
| Ok (a : A)
| Raise (e : exn).
Arguments Raise {A} e.

Definition bind {A B : Type} (c : result A) (k : A -> result B) : result B :=
  match c with
  | Ok a => k a
  | Raise e => Raise e
  end.

Notation "x <- c ;; k" := (bind c (fun x => k))
  (at level 61, c at next level, right associativity).

(** [[f(x) for x in l]]: left to right, the first exception ends it. *)
Fixpoint mapM {A B : Type} (f : A -> result B) (l : list A) : result (list B) :=
  match l with
  | [] => Ok []
  | a :: l' => b <- f a ;; bs <- mapM f l' ;; Ok (b :: bs)
  end.

(** [[x for x in l if p(x)]] *)
Fixpoint filterM {A : Type} (p : A -> result bool) (l : list A) : result (list A) :=
  match l with
  | [] => Ok []
  | a :: l' =>
      keep <- p a ;; rest <- filterM p l' ;;
      Ok (if keep then a :: rest else rest)
  end.

Definition raises {A : Type} (c : result A) : Prop := exists e, c = Raise e.

(** ** JSON documents, as [json.load] returns them *)

Inductive json : Type :=
| JNull
| JBool (b : bool)
| JInt (n : Z)
| JFloat (literal : str)
| JStr (s : str)
| JList (items : list json)
| JDict (members : list (str * json)).

(** [isinstance(v, list)], [isinstance(v, dict)] *)
Definition is_list (v : json) : bool :=
  match v with JList _ => true | _ => false end.
Definition is_dict (v : json) : bool :=
  match v with JDict _ => true | _ => false end.

Fixpoint lookup (key : str) (members : list (str * json)) : option json :=
  match members with
  | [] => None
  | (k, v) :: rest => if str_eqb k key then Some v else lookup key rest
  end.

(** [x[key]] for a string [key] *)
Definition getitem (x : json) (key : str) : result json :=
  match x with
  | JDict members =>
      match lookup key members with
      | Some v => Ok v
      | None => Raise (KeyError key)
      end
  | _ => Raise TypeError
  end.

(** [for item in v]: a list gives its items, a dict its keys, a string its
    characters; nothing else from a JSON document is iterable. *)
Definition iterate (v : json) : result (list json) :=
  match v with
  | JList items => Ok items
  | JDict members => Ok (map (fun kv => JStr (fst kv)) members)
  | JStr s => Ok (map (fun c => JStr [c]) s)
  | _ => Raise TypeError
  end.

(** [zip] stops at the end of its shortest argument. *)
Definition zip {A B : Type} (a : list A) (b : list B) : list (A * B) := combine a b.
Definition zip3 {A B C : Type} (a : list A) (b : list B) (c : list C)
  : list (A * B * C) := combine (combine a b) c.
Definition zip4 {A B C D : Type} (a : list A) (b : list B) (c : list C) (d : list D)
  : list (A * B * C * D) := combine (combine (combine a b) c) d.

(** [sorted(l, key=key)]: the keys are computed first, in order; the sort
    is stable and compares keys with [<] alone. *)
Section Sorted.
Variables (K A : Type) (ltb : K -> K -> bool).

Fixpoint insert_sorted (x : K * A) (l : list (K * A)) : list (K * A) :=
  match l with
  | [] => [x]
  | y :: l' => if ltb (fst y) (fst x) then y :: insert_sorted x l' else x :: y :: l'
  end.

Definition sort_pairs (l : list (K * A)) : list (K * A) :=
  fold_right insert_sorted [] l.

Definition sorted (key : A -> result K) (l : list A) : result (list A) :=
  keys <- mapM key l ;; Ok (map snd (sort_pairs (combine keys l))).
End Sorted.

(** [a < b] on pairs of strings: the first components decide unless they
    are equal. *)
Definition pair_ltb (a b : str * str) : bool :=
  if str_eqb (fst a) (fst b) then str_ltb (snd a) (snd b)
  else str_ltb (fst a) (fst b).

(** ** What the interpreter provides *)

Inductive parse_outcome : Type :=
| Parsed
| ParseRaises (e : exn).

(** [ast_parse]: what [ast.parse] does with a string, a tree (of which only
    the existence matters here) or an exception.  [str_of]: [str(v)] for a
    value that is not a string.  [int_of]: [int(s)], [None] standing for
    its [ValueError]. *)
Class Interpreter : Type := {
  ast_parse : str -> parse_outcome;
  str_of : json -> str;
  int_of : str -> option Z
}.

(** ** What the rest of the repository provides *)

(** Modelled from the spec: the members of [Scenario]
    (lcb_runner/utils/scenarios.py is not among the sources).  The spec's
    glossary gives the four evaluation modes, and [main] names each. *)
Inductive Scenario : Type :=
| codegeneration
| selfrepair
| testoutputprediction
| codeexecution.

Definition Scenario_eqb (a b : Scenario) : bool :=
  match a, b with
  | codegeneration, codegeneration
  | selfrepair, selfrepair
  | testoutputprediction, testoutputprediction
  | codeexecution, codeexecution => true
  | _, _ => false
  end.

(** The fields of [args] that [main] reads. *)
Record Args : Type := {
  scenario : Scenario;
  custom_output_file : str;
  custom_output_save_name : option str
}.

(** The collaborators of [main]: the benchmark's instances with their two
    record builders, the scenario router, the evaluation extractor, the
    path resolver, and the text of each scenario's [value].  A combined
    result pairs an outputs list with an extracted list. *)
Class Collaborators : Type := {
  instance : Type;
  save_result : Type;
  eval_result : Type;
  outputs : Type;
  extracted : Type;
  graded : Type;
  metadata : Type;
  metric : Type;
  insert_output : instance -> list json -> list json -> save_result;
  insert_output_evaluation :
    instance -> outputs -> extracted -> graded -> option metadata -> eval_result;
  sort_and_extract_save_results :
    Scenario -> list save_result -> result (list save_result * list (outputs * extracted));
  get_metrics :
    Scenario -> Args -> list instance -> list (outputs * extracted) -> result (list metric);
  extract_instance_results : metric -> result (list graded);
  metadatas_of : metric -> result (list metadata);
  scenario_value : Scenario -> str;
  get_output_path : str -> Args -> str
}.

(** ** custom_evaluator.py *)

Section Evaluator.
Context {interpreter : Interpreter} {collaborators : Collaborators}.

(** [str(v)] *)
Definition py_str (v : json) : str :=
  match v with
  | JStr s => s
  | _ => str_of v
  end.

(** [is_valid_python(code)]: [ast.parse] takes a string; any other JSON
    value is a [TypeError].  Only [SyntaxError] is caught. *)
Definition is_valid_python (code : json) : result bool :=
  match code with
  | JStr s =>
      match ast_parse s with
      | Parsed => Ok true
      | ParseRaises SyntaxError => Ok false
      | ParseRaises e => Raise e
      end
  | _ => Raise TypeError
  end.

(** [clean_code_output(output)] on a value of the document: [re.search]
    takes a string. *)
Definition clean_value (output : json) : result json :=
  match output with
  | JStr s => Ok (JStr (clean_code_output s))
  | _ => Raise TypeError
  end.

(** [[clean_code_output(output) for output in custom_output[field]]] *)
Definition cleaned_field (field : str) (custom_output : json) : result json :=
  outputs_list <- getitem custom_output field ;;
  outputs_list <- iterate outputs_list ;;
  cleaned <- mapM clean_value outputs_list ;;
  Ok (JList cleaned).

(** [lambda x: str(x["question_id"])] *)
Definition question_key (x : json) : result str :=
  q <- getitem x (lit "question_id") ;; Ok (py_str q).

(** [lambda x: (str(x["question_id"]), str(x['test_id']))] *)
Definition question_test_key (x : json) : result (str * str) :=
  q <- getitem x (lit "question_id") ;;
  t <- getitem x (lit "test_id") ;;
  Ok (py_str q, py_str t).

(** [lambda x: int(x["id"].split("_")[1])] *)
Definition execution_key (x : json) : result Z :=
  id <- getitem x (lit "id") ;;
  segments <- match id with
              | JStr s => Ok (split 95%N s)
              | _ => Raise AttributeError
              end ;;
  segment <- match nth_error segments 1 with
             | Some segment => Ok segment
             | None => Raise IndexError
             end ;;
  match int_of segment with
  | Some n => Ok n
  | None => Raise ValueError
  end.

(** Lines 52 to 80 of [main]: the document is checked and, when its records
    are dicts, sorted and reduced to the cleaned candidate lists. *)
Definition load_custom_outputs (scenario : Scenario) (custom_outputs : json)
  : result (list json) :=
  match custom_outputs with
  | JList records =>
      match records with
      | [] => Raise IndexError
      | first :: _ =>
          if is_list first then
            if forallb is_list records then Ok records else Raise AssertionError
          else if is_dict first then
            if forallb is_dict records then
              match scenario with
              | codegeneration | selfrepair =>
                  in_order <- sorted str_ltb question_key records ;;
                  mapM (cleaned_field (lit "code_list")) in_order
              | testoutputprediction =>
                  in_order <- sorted pair_ltb question_test_key records ;;
                  mapM (cleaned_field (lit "pred_list")) in_order
              | codeexecution =>
                  in_order <- sorted Z.ltb execution_key records ;;
                  mapM (cleaned_field (lit "pred_list")) in_order
              end
            else Raise AssertionError
          else Ok records
      end
  | _ => Raise AssertionError
  end.

(** Lines 83 to 86: every list keeps the outputs that parse. *)
Definition filter_valid (custom_outputs : list json) : result (list (list json)) :=
  mapM (fun outputs_list =>
          outputs_list <- iterate outputs_list ;;
          filterM is_valid_python outputs_list)
       custom_outputs.

(** Lines 88 to 91. *)
Definition save_results (benchmark : list instance) (custom_outputs : list (list json))
  : list save_result :=
  map (fun pair => insert_output (fst pair) (snd pair) (snd pair))
      (zip benchmark custom_outputs).

(** Lines 98 to 116. *)
Definition save_eval_results (scenario : Scenario) (benchmark : list instance)
    (combined_results : list (outputs * extracted)) (graded_lists : list graded)
    (metrics : list metric) : result (list eval_result) :=
  if Scenario_eqb scenario codegeneration then
    metadatas <- match nth_error metrics 2 with
                 | Some m => metadatas_of m
                 | None => Raise IndexError
                 end ;;
    Ok (map (fun row =>
               match row with
               | (inst, (outputs_list, extracted_list), graded_list, meta) =>
                   insert_output_evaluation inst outputs_list extracted_list
                                            graded_list (Some meta)
               end)
            (zip4 benchmark combined_results graded_lists metadatas))
  else
    Ok (map (fun row =>
               match row with
               | (inst, (outputs_list, extracted_list), graded_list) =>
                   insert_output_evaluation inst outputs_list extracted_list
                                            graded_list None
               end)
            (zip3 benchmark combined_results graded_lists)).

(** Lines 119 to 122. *)
Definition output_path (args : Args) : str :=
  match custom_output_save_name args with
  | None =>
      drop_last 5 (custom_output_file args)
        ++ lit "_" ++ scenario_value (scenario args) ++ lit "_output.json"
  | Some name => get_output_path name args
  end.

(** Lines 127 and 130: the names of the other two files. *)
Definition metrics_path (output_path : str) : str :=
  replace (lit ".json") (lit "_eval.json") output_path.
Definition eval_all_path (output_path : str) : str :=
  replace (lit ".json") (lit "_eval_all.json") output_path.

(** What a run leaves behind: three files, each a path and what is dumped. *)
Record Written : Type := {
  results_file : str * list save_result;
  metrics_file : str * list metric;
  eval_all_file : str * list eval_result
}.

(** [main], given what [get_args], [build_prompt_benchmark] and [json.load]
    returned. *)
Definition main (args : Args) (benchmark : list instance) (document : json)
  : result Written :=
  custom_outputs <- load_custom_outputs (scenario args) document ;;
  custom_outputs <- filter_valid custom_outputs ;;
  let saved := save_results benchmark custom_outputs in
  sorted_and_combined <- sort_and_extract_save_results (scenario args) saved ;;
  let saved := fst sorted_and_combined in
  let combined_results := snd sorted_and_combined in
  metrics <- get_metrics (scenario args) args benchmark combined_results ;;
  graded_lists <- match nth_error metrics 1 with
                  | Some m => extract_instance_results m
                  | None => Raise IndexError
                  end ;;
  evaluated <- save_eval_results (scenario args) benchmark combined_results
                                 graded_lists metrics ;;
  let path := output_path args in
  Ok {| results_file := (path, saved);
        metrics_file := (metrics_path path, metrics);
        eval_all_file := (eval_all_path path, evaluated) |}.

End Evaluator.

(** * Vocabulary of the statements *)

(** [p] occurs in [s]. *)
Definition infix_of (p s : str) : Prop := exists a b, s = a ++ p ++ b.

(** [s] holds a block fenced as Python with content [g], between [pre] and
    [post]. *)
Definition fenced (pre g post s : str) : Prop :=
  s = pre ++ fence_open ++ g ++ fence_close ++ post.

Definition no_leading_space (s : str) : Prop :=
  match s with
  | [] => True
  | c :: _ => isspace c = false
  end.

(** [a <= b], as far as [<] tells. *)
Definition not_after {K : Type} (ltb : K -> K -> bool) (a b : K) : Prop :=
  ltb b a = false.
Definition key_not_after {K A : Type} (ltb : K -> K -> bool) (x y : K * A) : Prop :=
  not_after ltb (fst x) (fst y).

Definition dot_json : str := lit ".json".

(** ** The sort keys of the four scenarios, as the specification tables them *)

Inductive sort_key : Type :=
| ByQuestion (question_id : str)
| ByQuestionTest (question_id test_id : str)
| ByNumber (n : Z).

(** [a < b] on sort keys; a run compares keys of one scenario only. *)
Definition key_ltb (a b : sort_key) : bool :=
  match a, b with
  | ByQuestion x, ByQuestion y => str_ltb x y
  | ByQuestionTest q t, ByQuestionTest q' t' => pair_ltb (q, t) (q', t')
  | ByNumber m, ByNumber n => Z.ltb m n
  | _, _ => false
  end.

Definition candidate_field (s : Scenario) : str :=
  match s with
  | codegeneration | selfrepair => lit "code_list"
  | testoutputprediction | codeexecution => lit "pred_list"
  end.

Section Vocabulary.
Context {interpreter : Interpreter}.

Definition scenario_key (s : Scenario) (x : json) : result sort_key :=
  match s with
  | codegeneration | selfrepair =>
      q <- getitem x (lit "question_id") ;; Ok (ByQuestion (py_str q))
  | testoutputprediction =>
      q <- getitem x (lit "question_id") ;;
      t <- getitem x (lit "test_id") ;;
      Ok (ByQuestionTest (py_str q) (py_str t))
  | codeexecution =>
      id <- getitem x (lit "id") ;;
      match id with
      | JStr s =>
          match nth_error (split 95%N s) 1 with
          | Some segment =>
              match int_of segment with
              | Some n => Ok (ByNumber n)
              | None => Raise ValueError
              end
          | None => Raise IndexError
          end
      | _ => Raise AttributeError
      end
  end.

(** The records in ascending order of their keys, each reduced to its
    cleaned candidate field. *)
Definition aligned_by_key (s : Scenario) (in_order : list json) (aligned : list json)
  : Prop :=
  exists keys,
    mapM (scenario_key s) in_order = Ok keys
    /\ StronglySorted (not_after key_ltb) keys
    /\ mapM (cleaned_field (candidate_field s)) in_order = Ok aligned.

(** The parser returned a tree. *)
Definition parses (s : str) : bool :=
  match ast_parse s with
  | Parsed => true
  | ParseRaises _ => false
  end.

(** The parser returned, or raised the one exception that is caught. *)
Definition syntax_decided (s : str) : Prop :=
  ast_parse s = Parsed \/ ast_parse s = ParseRaises SyntaxError.

(** The specification's step: clean each entry, then keep those that
    parse. *)
Definition sanitized (candidates : list str) : list str :=
  filter parses (map clean_code_output candidates).

(** Lines 52 to 86 of [main]. *)
Definition prepared_outputs (s : Scenario) (document : json) : result (list (list json)) :=
  custom_outputs <- load_custom_outputs s document ;; filter_valid custom_outputs.

(** A list of candidate strings as it stands in the document. *)
Definition string_list (candidates : list str) : json := JList (map JStr candidates).

End Vocabulary.

(** The fields a record must have, by scenario. *)
Definition required_fields (s : Scenario) : list str :=
  match s with
  | codegeneration | selfrepair => [lit "question_id"; lit "code_list"]
  | testoutputprediction => [lit "question_id"; lit "test_id"; lit "pred_list"]
  | codeexecution => [lit "id"; lit "pred_list"]
  end.

Definition lacks_field (s : Scenario) (r : json) : Prop :=
  exists members field,
    r = JDict members /\ In field (required_fields s) /\ lookup field members = None.

(** Both shapes occur among the records. *)
Definition mixes_shapes (records : list json) : Prop :=
  (exists r, In r records /\ is_list r = true)
  /\ (exists r, In r records /\ is_dict r = true).

(** ** An interpreter and documents for the examples *)

(** [int] on a string of ASCII digits. *)
Fixpoint digits_value (acc : Z) (s : str) : option Z :=
  match s with
  | [] => Some acc
  | c :: s' =>
      if ((48 <=? c) && (c <=? 57))%N
      then digits_value (10 * acc + Z.of_N (c - 48)) s'
      else None
  end.

Definition decimal (s : str) : option Z :=
  match s with
  | [] => None
  | _ :: _ => digits_value 0 s
  end.

(** Brackets close in the order they were opened, and no backquote occurs. *)
Fixpoint brackets_balance (expected : list char) (s : str) : bool :=
  match s with
  | [] => match expected with [] => true | _ :: _ => false end
  | c :: s' =>
      if (c =? 40)%N then brackets_balance (41%N :: expected) s'
      else if (c =? 91)%N then brackets_balance (93%N :: expected) s'
      else if (c =? 123)%N then brackets_balance (125%N :: expected) s'
      else if ((c =? 41) || (c =? 93) || (c =? 125))%N then
        match expected with
        | e :: rest => (e =? c)%N && brackets_balance rest s'
        | [] => false
        end
      else if (c =? 96)%N then false
      else brackets_balance expected s'
  end.

(** A stand-in for CPython in the examples, and no model of its grammar: it
    answers as CPython 3.11 does on the strings the examples use.  A null
    character is a [ValueError], an indented first line, an unclosed bracket
    or a backquote a [SyntaxError]; [int] reads ASCII digits; [str] is only
    asked about strings. *)
Definition example_interpreter : Interpreter := {|
  ast_parse := fun s =>
    if existsb (N.eqb 0) s then ParseRaises ValueError
    else match s with
         | c :: _ => if isspace c then ParseRaises SyntaxError
                     else if brackets_balance [] s then Parsed
                          else ParseRaises SyntaxError
         | [] => Parsed
         end;
  str_of := fun _ => [];
  int_of := decimal
|}.

(** A JSON object and a JSON list of strings, from literals. *)
Definition obj (members : list (string * json)) : json :=
  JDict (map (fun kv => (lit (fst kv), snd kv)) members).
Definition strs (items : list string) : json :=
  JList (map (fun s => JStr (lit s)) items).
Definition text (s : string) : json := JStr (lit s).

(** ** Collaborators for the examples *)

(** Stand-ins that pass on what they are given: an instance is its question
    id, a save result pairs it with its outputs, every output is graded
    [true], and the metrics hold an aggregate, the grades and the metadata
    in that order. *)
Definition example_collaborators : Collaborators := {|
  instance := str;
  save_result := str * list json;
  eval_result := str * list json * list bool;
  outputs := list json;
  extracted := list json;
  graded := list bool;
  metadata := list bool;
  metric := list (list bool);
  insert_output := fun inst outputs_list _ => (inst, outputs_list);
  insert_output_evaluation := fun inst outputs_list _ graded_list _ =>
    (inst, outputs_list, graded_list);
  sort_and_extract_save_results := fun _ saved =>
    Ok (saved, map (fun sr => (snd sr, snd sr)) saved);
  get_metrics := fun _ _ _ combined =>
    let grades := map (fun c => map (fun _ => true) (snd c)) combined in
    Ok [[]; grades; grades];
  extract_instance_results := fun m => Ok m;
  metadatas_of := fun m => Ok m;
  scenario_value := fun s =>
    match s with
    | codegeneration => lit "codegeneration"
    | selfrepair => lit "selfrepair"
    | testoutputprediction => lit "testoutputprediction"
    | codeexecution => lit "codeexecution"
    end;
  get_output_path := fun name _ => name
|}.

(** The arguments and the benchmark of the examples. *)
Definition example_args (s : Scenario) : Args := {|
  scenario := s;
  custom_output_file := lit "runs/out.json";
  custom_output_save_name := None
|}.

(** Records of the examples, out of order: two with [question_id] and
    [code_list], two for one question with [test_id]s, and three whose [id]s
    are in one order as numbers and in another as strings. *)
Definition generation_records : list json :=
  [ obj [("question_id", text "B"); ("code_list", strs ["x=2"])];
    obj [("question_id", text "A"); ("code_list", strs [" x=1 "])] ].
Definition prediction_records : list json :=
  [ obj [("question_id", text "A"); ("test_id", text "2"); ("pred_list", strs ["b"])];
    obj [("question_id", text "A"); ("test_id", text "1"); ("pred_list", strs ["a"])] ].
Definition execution_records : list json :=
  [ obj [("id", text "sample_2"); ("pred_list", strs ["b"])];
    obj [("id", text "sample_10"); ("pred_list", strs ["c "])];
    obj [("id", text "sample_1"); ("pred_list", strs ["a"])] ].

(** [sep] does not occur in [s]. *)
Definition free_of (sep : char) (s : str) : bool :=
  forallb (fun c => negb (c =? sep)%N) s.

(** The underscore, at which [id] is split. *)
Definition underscore : char := 95%N.

Section FilterVocabulary.
Context {interpreter : Interpreter}.

(** [is_valid_python] returned [True]. *)
Definition accepted (v : json) : bool :=
  match is_valid_python v with
  | Ok true => true
  | _ => false
  end.

(** A string on which the parser returned or raised [SyntaxError]. *)
Definition decided_string (v : json) : Prop :=
  exists s, v = JStr s /\ syntax_decided s.

End FilterVocabulary.

(** [v] is a string. *)
Definition is_str (v : json) : bool :=
  match v with JStr _ => true | _ => false end.

(** [a == b] on sort keys. *)
Definition sort_key_eqb (a b : sort_key) : bool :=
  match a, b with
  | ByQuestion x, ByQuestion y => str_eqb x y
  | ByQuestionTest q t, ByQuestionTest q' t' => str_eqb q q' && str_eqb t t'
  | ByNumber m, ByNumber n => Z.eqb m n
  | _, _ => false
  end.

Section KeyVocabulary.
Context {interpreter : Interpreter}.

(** The sort key of record [r] under scenario [s] is [k]. *)
Definition has_key (s : Scenario) (k : sort_key) (r : json) : bool :=
  match scenario_key s r with
  | Ok k' => sort_key_eqb k k'
  | Raise _ => false
  end.

End KeyVocabulary.

Unset Implicit Arguments.

(** * Facts about strings *)

Lemma startswith_app (p b : str) : startswith p (p ++ b) = true.
Proof.
  induction p as [|a p IH]; simpl; [reflexivity|].
  now rewrite N.eqb_refl, IH.
Qed.

Lemma startswith_true (p s : str) :
  startswith p s = true -> exists b, s = p ++ b.
Proof.
  revert s; induction p as [|a p IH]; intros s H; simpl in *.
  - now exists s.
  - destruct s as [|c s]; [discriminate|].
    apply andb_true_iff in H as [Hac Hps].
    apply N.eqb_eq in Hac; subst c.
    destruct (IH _ Hps) as [b ->]. now exists b.
Qed.

Lemma occurrences_from_shift (i : nat) (p s : str) :
  occurrences_from (S i) p s = map S (occurrences_from i p s).
Proof.
  revert i; induction s as [|c s IH]; intros i; simpl.
  - now destruct (startswith p []).
  - destruct (startswith p (c :: s)); simpl; now rewrite IH.
Qed.

Lemma find_cons (p : str) (c : char) (s : str) :
  find p (c :: s) =
  if startswith p (c :: s) then Some 0 else option_map S (find p s).
Proof.
  unfold find, occurrences; simpl.
  destruct (startswith p (c :: s)); [reflexivity|].
  rewrite occurrences_from_shift.
  now destruct (occurrences_from 0 p s).
Qed.

Lemma find_nil (p : str) : find p [] = if startswith p [] then Some 0 else None.
Proof. unfold find, occurrences; simpl. now destruct (startswith p []). Qed.

Lemma find_Some (p s : str) (i : nat) :
  find p s = Some i -> exists b, skipn i s = p ++ b.
Proof.
  revert i; induction s as [|c s IH]; intros i H.
  - rewrite find_nil in H. destruct (startswith p []) eqn:E; [|discriminate].
    injection H as <-. now apply startswith_true.
  - rewrite find_cons in H. destruct (startswith p (c :: s)) eqn:E.
    + injection H as <-. now apply startswith_true.
    + destruct (find p s) as [j|] eqn:F; [|discriminate].
      injection H as <-. simpl. now apply IH.
Qed.

Lemma find_None (p s : str) : find p s = None -> ~ infix_of p s.
Proof.
  induction s as [|c s IH]; intros H [a [b E]].
  - rewrite find_nil in H. destruct a; [|discriminate].
    simpl in E. rewrite E, startswith_app in H. discriminate.
  - rewrite find_cons in H. destruct (startswith p (c :: s)) eqn:S0; [discriminate|].
    destruct (find p s) eqn:F; [discriminate|].
    destruct a as [|x a]; simpl in E.
    + rewrite E, startswith_app in S0. discriminate.
    + injection E as _ E. apply IH; [reflexivity|]. now exists a, b.
Qed.

Lemma find_infix (p a b : str) :
  exists i, find p (a ++ p ++ b) = Some i /\ i <= length a.
Proof.
  induction a as [|c a [i [F L]]]; simpl.
  - destruct (p ++ b) as [|x t] eqn:E.
    + rewrite find_nil. destruct p; [|discriminate]. simpl. exists 0. split; [reflexivity|lia].
    + rewrite find_cons, <- E, startswith_app. exists 0. split; [reflexivity|lia].
  - rewrite find_cons. destruct (startswith p (c :: a ++ p ++ b)).
    + exists 0. split; [reflexivity|lia].
    + rewrite F. exists (S i). split; [reflexivity|lia].
Qed.

Lemma infix_of_trans (p q s : str) : infix_of p q -> infix_of q s -> infix_of p s.
Proof.
  intros [a [b ->]] [c [d ->]]. exists (c ++ a), (b ++ d).
  now rewrite !app_assoc.
Qed.

(** ** [strip] *)

Lemma lstrip_split (s : str) : exists ws, s = ws ++ lstrip s /\ forallb isspace ws = true.
Proof.
  induction s as [|c s [ws [E W]]]; simpl.
  - now exists [].
  - destruct (isspace c) eqn:Hc.
    + exists (c :: ws). simpl. rewrite Hc, W. split; [now f_equal|reflexivity].
    + now exists [].
Qed.

Lemma lstrip_no_leading_space (s : str) : no_leading_space (lstrip s).
Proof.
  induction s as [|c s IH]; simpl; [exact I|].
  destruct (isspace c) eqn:Hc; [exact IH|exact Hc].
Qed.

Lemma lstrip_fixed (s : str) : no_leading_space s -> lstrip s = s.
Proof. destruct s as [|c s]; simpl; [reflexivity|]. now intros ->. Qed.

Lemma rstrip_split (s : str) : exists ws, s = rstrip s ++ ws /\ forallb isspace ws = true.
Proof.
  unfold rstrip. destruct (lstrip_split (rev s)) as [ws [E W]].
  exists (rev ws). split.
  - rewrite <- rev_app_distr, <- E. now rewrite rev_involutive.
  - rewrite forallb_forall in *. intros x Hx. apply W. now apply in_rev.
Qed.

Lemma rstrip_fixed (s : str) : rstrip (rstrip s) = rstrip s.
Proof.
  unfold rstrip. rewrite rev_involutive.
  now rewrite (lstrip_fixed _ (lstrip_no_leading_space (rev s))).
Qed.

Lemma rstrip_no_leading_space (s : str) : no_leading_space s -> no_leading_space (rstrip s).
Proof.
  intros H. destruct (rstrip_split s) as [ws [E W]].
  destruct (rstrip s) as [|c r]; [exact I|].
  rewrite E in H. exact H.
Qed.

Lemma strip_fixed (s : str) : strip (strip s) = strip s.
Proof.
  unfold strip.
  rewrite (lstrip_fixed _ (rstrip_no_leading_space _ (lstrip_no_leading_space s))).
  apply rstrip_fixed.
Qed.

Lemma strip_infix (s : str) : infix_of (strip s) s.
Proof.
  destruct (lstrip_split s) as [ws1 [E1 _]].
  destruct (rstrip_split (lstrip s)) as [ws2 [E2 _]].
  exists ws1, ws2. unfold strip. now rewrite <- E2.
Qed.

(** ** The pattern search *)

Lemma lazy_group_eq (s : str) :
  lazy_group s =
  if startswith fence_close s then Some []
  else match s with
       | [] => None
       | c :: s' => option_map (cons c) (lazy_group s')
       end.
Proof. destruct s; reflexivity. Qed.

Lemma re_search_eq (s : str) :
  re_search s =
  match match_here s with
  | Some g => Some g
  | None => match s with
            | [] => None
            | _ :: s' => re_search s'
            end
  end.
Proof. destruct s; reflexivity. Qed.

(** The lazy group ends at the first closing fence. *)
Lemma lazy_group_find (s : str) :
  lazy_group s = option_map (fun n => firstn n s) (find fence_close s).
Proof.
  induction s as [|c s IH].
  - reflexivity.
  - rewrite lazy_group_eq, find_cons.
    destruct (startswith fence_close (c :: s)); [reflexivity|].
    rewrite IH. now destruct (find fence_close s).
Qed.

Lemma find_None_skipn (p s : str) (k : nat) :
  find p s = None -> find p (skipn k s) = None.
Proof.
  intros H. destruct (find p (skipn k s)) as [i|] eqn:F; [|reflexivity].
  exfalso. apply (find_None _ _ H).
  destruct (find_Some _ _ _ F) as [b E].
  exists (firstn k s ++ firstn i (skipn k s)), b.
  rewrite <- app_assoc, <- E, firstn_skipn. now rewrite firstn_skipn.
Qed.

(** The search stops at the first opening fence that a closing fence
    follows, which is the first opening fence if any is. *)
Lemma re_search_find (s : str) :
  re_search s =
  match find fence_open s with
  | Some i =>
      let rest := skipn (i + length fence_open) s in
      option_map (fun j => firstn j rest) (find fence_close rest)
  | None => None
  end.
Proof.
  induction s as [|c s IH].
  - reflexivity.
  - rewrite re_search_eq, find_cons. unfold match_here.
    destruct (startswith fence_open (c :: s)) eqn:E.
    + rewrite lazy_group_find. cbv zeta.
      change (0 + length fence_open) with (length fence_open).
      destruct (find fence_close (skipn (length fence_open) (c :: s))) as [j|] eqn:F;
        [reflexivity|].
      simpl. rewrite IH. destruct (find fence_open s) as [i|]; [|reflexivity].
      cbv zeta.
      replace (skipn (i + length fence_open) s)
        with (skipn (S i) (skipn (length fence_open) (c :: s))).
      * now rewrite (find_None_skipn _ _ (S i) F).
      * rewrite skipn_skipn. now replace (S i + length fence_open) with (S (i + length fence_open)) by lia.
    + rewrite IH. destruct (find fence_open s) as [i|]; reflexivity.
Qed.

(** A match is a fenced block: the search is sound. *)
Lemma re_search_fenced (s g : str) :
  re_search s = Some g ->
  exists pre post,
    fenced pre g post s
    /\ find fence_open s = Some (length pre)
    /\ find fence_close (g ++ fence_close ++ post) = Some (length g).
Proof.
  intros H. rewrite re_search_find in H.
  destruct (find fence_open s) as [i|] eqn:Fo; [|discriminate].
  cbv zeta in H.
  destruct (find_Some _ _ _ Fo) as [b Eb].
  assert (Hi : i <= length s).
  { destruct (Nat.le_gt_cases i (length s)) as [L|L]; [exact L|].
    rewrite skipn_all2 in Eb by lia. discriminate. }
  assert (Hrest : skipn (i + length fence_open) s = b).
  { rewrite Nat.add_comm, <- skipn_skipn, Eb.
    now rewrite skipn_app, skipn_all, Nat.sub_diag. }
  rewrite Hrest in H.
  destruct (find fence_close b) as [j|] eqn:Fc; [|discriminate].
  cbn [option_map] in H. injection H as <-.
  destruct (find_Some _ _ _ Fc) as [d Ed].
  assert (Hj : j <= length b).
  { destruct (Nat.le_gt_cases j (length b)) as [L|L]; [exact L|].
    rewrite skipn_all2 in Ed by lia. discriminate. }
  assert (Eg : firstn j b ++ fence_close ++ d = b)
    by (rewrite <- Ed; apply firstn_skipn).
  exists (firstn i s), d. unfold fenced.
  rewrite Eg, <- Eb, firstn_skipn.
  rewrite !length_firstn, (Nat.min_l _ _ Hi), (Nat.min_l _ _ Hj).
  auto.
Qed.

(** A fenced block is found: the search is complete. *)
Lemma re_search_complete (pre g post : str) :
  exists g', re_search (pre ++ fence_open ++ g ++ fence_close ++ post) = Some g'.
Proof.
  rewrite re_search_find.
  destruct (find_infix fence_open pre (g ++ fence_close ++ post)) as [i [F L]].
  rewrite F. cbv zeta.
  destruct (find_Some _ _ _ F) as [b Eb].
  set (s := pre ++ fence_open ++ g ++ fence_close ++ post) in *.
  assert (Hrest : skipn (i + length fence_open) s = b).
  { rewrite Nat.add_comm, <- skipn_skipn, Eb.
    now rewrite skipn_app, skipn_all, Nat.sub_diag. }
  rewrite Hrest.
  destruct (find fence_close b) as [j|] eqn:Fc; [now eexists|].
  exfalso. apply (find_None _ _ Fc).
  (* the closing fence of the block lies after the first opening fence *)
  assert (E : skipn i s = skipn i pre ++ fence_open ++ g ++ fence_close ++ post).
  { unfold s. rewrite skipn_app. replace (i - length pre) with 0 by lia. reflexivity. }
  assert (Hb : b = skipn (length fence_open)
                     (skipn i pre ++ fence_open ++ g ++ fence_close ++ post)).
  { rewrite <- E, Eb. now rewrite skipn_app, skipn_all, Nat.sub_diag. }
  rewrite Hb.
  exists (skipn (length fence_open) (skipn i pre ++ fence_open ++ g)), post.
  replace (skipn i pre ++ fence_open ++ g ++ fence_close ++ post)
    with ((skipn i pre ++ fence_open ++ g) ++ fence_close ++ post)
    by now rewrite <- !app_assoc.
  rewrite skipn_app.
  replace (length fence_open - length (skipn i pre ++ fence_open ++ g)) with 0
    by (rewrite !length_app; lia).
  reflexivity.
Qed.

(** * The code sanitizer: [clean_code_output] *)

Lemma fence_close_in_fenced (pre g post s : str) :
  fenced pre g post s -> infix_of fence_close s.
Proof.
  intros ->. exists (pre ++ fence_open ++ g), post. now rewrite <- !app_assoc.
Qed.

(** The group of a match holds no closing fence. *)
Lemma re_search_group_open (s g : str) :
  re_search s = Some g -> ~ infix_of fence_close g.
Proof.
  intros H [a [b E]].
  destruct (re_search_fenced _ _ H) as [pre [post [_ [_ F]]]].
  subst g.
  destruct (find_infix fence_close a (b ++ fence_close ++ post)) as [i [Fi L]].
  replace ((a ++ fence_close ++ b) ++ fence_close ++ post)
    with (a ++ fence_close ++ b ++ fence_close ++ post) in F
    by now rewrite <- !app_assoc.
  rewrite Fi in F. injection F as F.
  rewrite !length_app in F. simpl in F. lia.
Qed.

Lemma re_search_infix (p s : str) :
  infix_of p s -> re_search s = None -> re_search p = None.
Proof.
  intros I N. destruct (re_search p) as [g|] eqn:E; [|reflexivity].
  destruct (re_search_fenced _ _ E) as [pre [post [F _]]].
  destruct I as [a [b ->]]. rewrite F in N.
  destruct (re_search_complete (a ++ pre) g (post ++ b)) as [g' G].
  replace (a ++ (pre ++ fence_open ++ g ++ fence_close ++ post) ++ b)
    with ((a ++ pre) ++ fence_open ++ g ++ fence_close ++ post ++ b) in N
    by now rewrite <- !app_assoc.
  congruence.
Qed.

(** C5. [clean_code_output] is idempotent: cleaning a cleaned text changes
    nothing, for every text. *)
Theorem clean_code_output_idempotent (x : str) :
  clean_code_output (clean_code_output x) = clean_code_output x.
Proof.
  unfold clean_code_output at 2 3. cbv zeta.
  destruct (re_search x) as [g|] eqn:E.
  - (* a block was taken out: what is left of it holds no closing fence *)
    unfold clean_code_output. cbv zeta.
    destruct (re_search (strip g)) as [g'|] eqn:E'.
    + exfalso. apply (re_search_group_open _ _ E).
      destruct (re_search_fenced _ _ E') as [pre [post [F _]]].
      apply infix_of_trans with (q := strip g); [|apply strip_infix].
      exact (fence_close_in_fenced _ _ _ _ F).
    + apply strip_fixed.
  - (* no block in the text, so none in its trimmed form *)
    unfold clean_code_output. cbv zeta.
    rewrite (re_search_infix _ _ (strip_infix x) E).
    apply strip_fixed.
Qed.

(** C4, as the code has it.  The fence that counts is the one tagged
    [python], and the block that counts is the first: for a text whose first
    opening fence ends [pre] and whose first closing fence after it ends the
    content [g], the result is [g] trimmed, whatever [pre] and [post] are;
    every text that holds a fenced block has such a first block; and a text
    with no block fenced as Python is returned trimmed. *)
Theorem clean_code_output_first_block (s : str) :
  (forall pre g post,
      fenced pre g post s ->
      find fence_open s = Some (length pre) ->
      find fence_close (g ++ fence_close ++ post) = Some (length g) ->
      clean_code_output s = strip g)
  /\ ((exists pre g post, fenced pre g post s) ->
      exists pre g post,
        fenced pre g post s
        /\ find fence_open s = Some (length pre)
        /\ find fence_close (g ++ fence_close ++ post) = Some (length g))
  /\ ((forall pre g post, ~ fenced pre g post s) ->
      clean_code_output s = strip s).
Proof.
  split; [|split].
  - intros pre g post F Fo Fc.
    unfold clean_code_output. cbv zeta.
    rewrite re_search_find, Fo. cbv zeta.
    assert (R : skipn (length pre + length fence_open) s = g ++ fence_close ++ post).
    { rewrite F.
      replace (pre ++ fence_open ++ g ++ fence_close ++ post)
        with ((pre ++ fence_open) ++ g ++ fence_close ++ post)
        by now rewrite <- !app_assoc.
      rewrite <- length_app. now rewrite skipn_app, skipn_all, Nat.sub_diag. }
    rewrite R, Fc. cbn [option_map].
    now rewrite firstn_app, firstn_all, Nat.sub_diag, app_nil_r.
  - intros [pre [g [post F]]].
    destruct (re_search_complete pre g post) as [g' G].
    rewrite <- F in G.
    destruct (re_search_fenced _ _ G) as [pre' [post' H]].
    now exists pre', g', post'.
  - intros N. unfold clean_code_output. cbv zeta.
    destruct (re_search s) as [g|] eqn:E; [|reflexivity].
    destruct (re_search_fenced _ _ E) as [pre [post [F _]]].
    now destruct (N pre g post).
Qed.

Lemma clean_code_output_first_block_witness :
  clean_code_output
    (lit "Sure:" ++ [nl] ++ fence_open ++ lit " return 2 " ++ fence_close ++ lit " done")
  = lit "return 2"
  /\ clean_code_output (lit " x=1 " ++ [nl]) = lit "x=1".
Proof.
  split.
  - apply (proj1 (clean_code_output_first_block _)
             (lit "Sure:" ++ [nl]) (lit " return 2 ") (lit " done"));
      reflexivity.
  - apply (proj2 (proj2 (clean_code_output_first_block (lit " x=1 " ++ [nl])))).
    intros pre g post F.
    apply (find_None fence_open (lit " x=1 " ++ [nl])); [reflexivity|].
    exists pre, (g ++ fence_close ++ post). exact F.
Defined.

(** C4, as stated, fails twice over.  A block fenced with another tag is
    not taken out: the text comes back with its fences.  And of two Python
    blocks only the first counts: the content of the second is not
    returned. *)
Lemma clean_code_output_any_fence_fails :
  ~ (forall pre tag g post,
        clean_code_output (pre ++ lit "```" ++ tag ++ [nl] ++ g ++ fence_close ++ post)
        = strip g)
  /\ ~ (forall pre g post,
          clean_code_output (pre ++ fence_open ++ g ++ fence_close ++ post)
          = strip g).
Proof.
  split; intros H.
  - specialize (H [] (lit "js") (lit "x") []). vm_compute in H. discriminate.
  - specialize (H (fence_open ++ lit "a" ++ fence_close ++ [nl]) (lit "b") []).
    vm_compute in H. discriminate.
Qed.

(** * Facts about the result monad *)

Lemma mapM_cons_Ok {A B : Type} (f : A -> result B) (a : A) (l : list A) (r : list B) :
  mapM f (a :: l) = Ok r ->
  exists b bs, f a = Ok b /\ mapM f l = Ok bs /\ r = b :: bs.
Proof.
  simpl. destruct (f a) as [b|e]; simpl; [|discriminate].
  destruct (mapM f l) as [bs|e]; simpl; [|discriminate].
  intros [= <-]. now exists b, bs.
Qed.

Lemma mapM_length {A B : Type} (f : A -> result B) (l : list A) (r : list B) :
  mapM f l = Ok r -> length r = length l.
Proof.
  revert r; induction l as [|a l IH]; intros r H.
  - injection H as <-. reflexivity.
  - destruct (mapM_cons_Ok _ _ _ _ H) as [b [bs [_ [Hl ->]]]].
    simpl. now rewrite (IH _ Hl).
Qed.

(** A comprehension returns exactly when its body returns on every item. *)
Lemma mapM_Forall2 {A B : Type} (f : A -> result B) (l : list A) (r : list B) :
  mapM f l = Ok r <-> Forall2 (fun a b => f a = Ok b) l r.
Proof.
  split.
  - revert r; induction l as [|a l IH]; intros r H.
    + injection H as <-. constructor.
    + destruct (mapM_cons_Ok _ _ _ _ H) as [b [bs [Ha [Hl ->]]]].
      constructor; auto.
  - induction 1 as [|a b l r Ha _ IH]; simpl; [reflexivity|].
    now rewrite Ha, IH.
Qed.

(** It raises as soon as its body raises on one item. *)
Lemma mapM_raises {A B : Type} (f : A -> result B) (l : list A) (a : A) :
  In a l -> raises (f a) -> raises (mapM f l).
Proof.
  intros I [e E]. induction l as [|x l IH]; [contradiction|].
  simpl. destruct I as [->|I].
  - rewrite E. now exists e.
  - destruct (f x) as [b|e']; simpl; [|now exists e'].
    destruct (IH I) as [e' ->]. now exists e'.
Qed.

Lemma mapM_permutation {A B : Type} (f : A -> result B) (l l' : list A) (ks : list B) :
  Permutation l l' -> mapM f l = Ok ks ->
  exists ks', mapM f l' = Ok ks' /\ Permutation (combine ks l) (combine ks' l').
Proof.
  intros P; revert ks; induction P as [|x l l' _ IH|x y l|l l' l'' _ IH1 _ IH2]; intros ks H.
  - injection H as <-. now exists [].
  - destruct (mapM_cons_Ok _ _ _ _ H) as [b [bs [Hx [Hl ->]]]].
    destruct (IH _ Hl) as [ks' [H' P']]. exists (b :: ks'). simpl.
    rewrite Hx, H'. split; [reflexivity|now constructor].
  - destruct (mapM_cons_Ok _ _ _ _ H) as [b [bs [Hy [Hl ->]]]].
    destruct (mapM_cons_Ok _ _ _ _ Hl) as [c [cs [Hx [Hl' ->]]]].
    exists (c :: b :: cs). simpl. rewrite Hx, Hy, Hl'.
    split; [reflexivity|apply perm_swap].
  - destruct (IH1 _ H) as [k1 [H1 P1]]. destruct (IH2 _ H1) as [k2 [H2 P2]].
    exists k2. split; [exact H2|now transitivity (combine k1 l')].
Qed.

(** * Facts about [sorted] *)

Section SortedFacts.
Variables (K A : Type) (ltb : K -> K -> bool).

Hypothesis ltb_asym : forall a b, ltb a b = true -> ltb b a = false.
Hypothesis not_after_trans :
  forall a b c, not_after ltb a b -> not_after ltb b c -> not_after ltb a c.

Lemma insert_sorted_permutation (x : K * A) (l : list (K * A)) :
  Permutation (insert_sorted ltb x l) (x :: l).
Proof.
  induction l as [|y l IH]; simpl; [reflexivity|].
  destruct (ltb (fst y) (fst x)); [|reflexivity].
  rewrite IH. apply perm_swap.
Qed.

Lemma sort_pairs_permutation (l : list (K * A)) : Permutation (sort_pairs ltb l) l.
Proof.
  induction l as [|x l IH]; simpl; [reflexivity|].
  rewrite insert_sorted_permutation. now constructor.
Qed.

Lemma insert_sorted_Sorted (x : K * A) (l : list (K * A)) :
  Sorted (key_not_after ltb) l -> Sorted (key_not_after ltb) (insert_sorted ltb x l).
Proof.
  induction 1 as [|y l S IH H]; simpl; [repeat constructor|].
  destruct (ltb (fst y) (fst x)) eqn:E.
  - constructor; [exact IH|].
    destruct l as [|z l]; simpl.
    + constructor. now apply ltb_asym.
    + destruct (ltb (fst z) (fst x)).
      * inversion H; now constructor.
      * constructor. now apply ltb_asym.
  - constructor; [now constructor|]. now constructor.
Qed.

Lemma sort_pairs_StronglySorted (l : list (K * A)) :
  StronglySorted (key_not_after ltb) (sort_pairs ltb l).
Proof.
  apply Sorted_StronglySorted.
  - intros a b c. apply not_after_trans.
  - induction l as [|x l IH]; simpl; [constructor|].
    now apply insert_sorted_Sorted.
Qed.

Hypothesis ltb_total : forall a b, ltb a b = false -> ltb b a = false -> a = b.

(** With keys that differ from one another there is one sorted order. *)
Lemma sorted_unique (l l' : list (K * A)) :
  StronglySorted (key_not_after ltb) l -> StronglySorted (key_not_after ltb) l' ->
  NoDup (map fst l) -> Permutation l l' -> l = l'.
Proof.
  intros S; revert l'; induction S as [|x t S IH Hx]; intros l' S' N P.
  - now rewrite (Permutation_nil P).
  - destruct l' as [|y t']; [now apply Permutation_sym, Permutation_nil in P|].
    inversion S' as [|? ? S't Hy]; subst.
    simpl in N. inversion N as [|? ? Nx Nt]; subst.
    assert (E : x = y).
    { assert (Ix : In x (y :: t')) by (apply (Permutation_in _ P); now left).
      assert (Iy : In y (x :: t))
        by (apply (Permutation_in _ (Permutation_sym P)); now left).
      destruct Ix as [->|Ix]; [reflexivity|].
      destruct Iy as [->|Iy]; [reflexivity|].
      exfalso. apply Nx.
      rewrite Forall_forall in Hx, Hy.
      rewrite (ltb_total (fst x) (fst y) (Hy _ Ix) (Hx _ Iy)).
      now apply in_map. }
    subst y. f_equal. apply IH; auto.
    now apply Permutation_cons_inv in P.
Qed.

End SortedFacts.

(** ** The three orders are strict total orders *)

Section StrictOrder.
Variables (K : Type) (ltb : K -> K -> bool).
Hypothesis ltb_irrefl : forall a, ltb a a = false.
Hypothesis ltb_trans : forall a b c, ltb a b = true -> ltb b c = true -> ltb a c = true.
Hypothesis ltb_total : forall a b, ltb a b = false -> ltb b a = false -> a = b.

Lemma strict_asym (a b : K) : ltb a b = true -> ltb b a = false.
Proof.
  intros H. destruct (ltb b a) eqn:E; [|reflexivity].
  now rewrite <- (ltb_irrefl a), <- (ltb_trans _ _ _ H E).
Qed.

Lemma strict_not_after_trans (a b c : K) :
  not_after ltb a b -> not_after ltb b c -> not_after ltb a c.
Proof.
  unfold not_after. intros Hab Hbc.
  destruct (ltb c a) eqn:Hca; [|reflexivity].
  destruct (ltb a b) eqn:E.
  - now rewrite (ltb_trans _ _ _ Hca E) in Hbc.
  - rewrite (ltb_total _ _ E Hab) in Hca. congruence.
Qed.
End StrictOrder.

Lemma str_eqb_eq (a b : str) : str_eqb a b = true <-> a = b.
Proof.
  revert b; induction a as [|x a IH]; intros [|y b]; simpl; try easy.
  rewrite andb_true_iff, N.eqb_eq, IH. split.
  - now intros [-> ->].
  - now intros [= -> ->].
Qed.

Lemma str_eqb_refl (a : str) : str_eqb a a = true.
Proof. now apply str_eqb_eq. Qed.

Lemma str_ltb_irrefl (a : str) : str_ltb a a = false.
Proof.
  induction a as [|x a IH]; simpl; [reflexivity|].
  now rewrite N.ltb_irrefl, N.eqb_refl, IH.
Qed.

Lemma str_ltb_cons (x y : char) (a b : str) :
  str_ltb (x :: a) (y :: b) = true <-> (x < y)%N \/ x = y /\ str_ltb a b = true.
Proof. simpl. now rewrite orb_true_iff, andb_true_iff, N.ltb_lt, N.eqb_eq. Qed.

Lemma str_ltb_trans (a b c : str) :
  str_ltb a b = true -> str_ltb b c = true -> str_ltb a c = true.
Proof.
  revert b c; induction a as [|x a IH]; intros [|y b] [|z c]; try easy.
  rewrite !str_ltb_cons. intros [H1|[-> H1]] [H2|[-> H2]].
  - left. lia.
  - now left.
  - now left.
  - right. split; [reflexivity|]. now apply IH with b.
Qed.

Lemma str_ltb_total (a b : str) :
  str_ltb a b = false -> str_ltb b a = false -> a = b.
Proof.
  revert b; induction a as [|x a IH]; intros [|y b]; simpl; try easy.
  rewrite !orb_false_iff, !andb_false_iff, !N.ltb_ge, !N.eqb_neq.
  intros [H1 H2] [H3 H4].
  assert (x = y) by lia. subst y.
  f_equal. apply IH.
  - destruct H2; [congruence|assumption].
  - destruct H4; [congruence|assumption].
Qed.

Lemma pair_ltb_irrefl (a : str * str) : pair_ltb a a = false.
Proof. unfold pair_ltb. rewrite str_eqb_refl. apply str_ltb_irrefl. Qed.

Lemma pair_ltb_trans (a b c : str * str) :
  pair_ltb a b = true -> pair_ltb b c = true -> pair_ltb a c = true.
Proof.
  destruct a as [a1 a2], b as [b1 b2], c as [c1 c2]. unfold pair_ltb; simpl.
  destruct (str_eqb a1 b1) eqn:E1, (str_eqb b1 c1) eqn:E2;
    try (apply str_eqb_eq in E1; subst b1);
    try (apply str_eqb_eq in E2; subst c1).
  - rewrite str_eqb_refl. apply str_ltb_trans.
  - rewrite E2. auto.
  - rewrite E1. auto.
  - intros H1 H2. pose proof (str_ltb_trans _ _ _ H1 H2) as H.
    destruct (str_eqb a1 c1) eqn:E3; [|exact H].
    apply str_eqb_eq in E3; subst c1. now rewrite str_ltb_irrefl in H.
Qed.

Lemma pair_ltb_total (a b : str * str) :
  pair_ltb a b = false -> pair_ltb b a = false -> a = b.
Proof.
  destruct a as [a1 a2], b as [b1 b2]. unfold pair_ltb; simpl.
  destruct (str_eqb a1 b1) eqn:E1.
  - apply str_eqb_eq in E1; subst b1. rewrite str_eqb_refl.
    intros H1 H2. now rewrite (str_ltb_total _ _ H1 H2).
  - destruct (str_eqb b1 a1) eqn:E2.
    + apply str_eqb_eq in E2; subst b1. now rewrite str_eqb_refl in E1.
    + intros H1 H2. rewrite (str_ltb_total _ _ H1 H2) in E1.
      now rewrite str_eqb_refl in E1.
Qed.

Lemma Z_ltb_trans (a b c : Z) : Z.ltb a b = true -> Z.ltb b c = true -> Z.ltb a c = true.
Proof. rewrite !Z.ltb_lt. lia. Qed.

Lemma Z_ltb_total (a b : Z) : Z.ltb a b = false -> Z.ltb b a = false -> a = b.
Proof. rewrite !Z.ltb_ge. lia. Qed.

Section Alignment.
Context {interpreter : Interpreter}.

Lemma map_fst_combine {A B : Type} (ks : list A) (l : list B) :
  length ks = length l -> map fst (combine ks l) = ks.
Proof.
  revert l; induction ks as [|k ks IH]; intros [|a l]; simpl; try easy.
  intros [= H]. now rewrite IH.
Qed.

Lemma map_snd_combine {A B : Type} (ks : list A) (l : list B) :
  length ks = length l -> map snd (combine ks l) = l.
Proof.
  revert l; induction ks as [|k ks IH]; intros [|a l]; simpl; try easy.
  intros [= H]. now rewrite IH.
Qed.

Lemma StronglySorted_map {A B : Type} (R : A -> A -> Prop) (R' : B -> B -> Prop)
    (f : A -> B) (l : list A) :
  (forall a b, R a b -> R' (f a) (f b)) ->
  StronglySorted R l -> StronglySorted R' (map f l).
Proof.
  intros H; induction 1 as [|a l S IH F]; simpl; constructor; [exact IH|].
  rewrite Forall_forall in *. intros y Hy.
  apply in_map_iff in Hy as [x [<- Hx]]. auto.
Qed.

(** What [sorted] returns: the items in an order of ascending keys. *)
Lemma sorted_spec {K : Type} (ltb : K -> K -> bool) (key : json -> result K)
    (l r : list json) :
  (forall a, ltb a a = false) ->
  (forall a b c, ltb a b = true -> ltb b c = true -> ltb a c = true) ->
  (forall a b, ltb a b = false -> ltb b a = false -> a = b) ->
  sorted ltb key l = Ok r ->
  exists ks,
    Permutation l r /\ mapM key r = Ok ks /\ StronglySorted (not_after ltb) ks.
Proof.
  intros Hi Ht Ho H. unfold sorted in H.
  destruct (mapM key l) as [ks0|e] eqn:E; simpl in H; [|discriminate].
  injection H as <-.
  pose proof (mapM_length _ _ _ E) as L.
  pose proof (sort_pairs_permutation _ _ ltb (combine ks0 l)) as P.
  exists (map fst (sort_pairs ltb (combine ks0 l))). split; [|split].
  - rewrite <- (map_snd_combine ks0 l L) at 1.
    apply Permutation_map, Permutation_sym, P.
  - apply mapM_Forall2.
    assert (F : Forall (fun p => key (snd p) = Ok (fst p)) (combine ks0 l)).
    { apply mapM_Forall2 in E. clear L P.
      induction E; simpl; constructor; auto. }
    assert (F' : Forall (fun p => key (snd p) = Ok (fst p))
                        (sort_pairs ltb (combine ks0 l))).
    { rewrite Forall_forall in *. intros p Hp. apply F.
      now apply (Permutation_in _ P). }
    clear - F'. revert F'. generalize (sort_pairs ltb (combine ks0 l)) as sp.
    induction 1; simpl; constructor; auto.
  - apply StronglySorted_map with (R := key_not_after ltb); [auto|].
    apply sort_pairs_StronglySorted.
    + apply strict_asym; assumption.
    + apply strict_not_after_trans; assumption.
Qed.

Lemma mapM_then {A B C : Type} (f : A -> result B) (g : A -> result C) (h : B -> C)
    (l : list A) (ks : list B) :
  (forall a, g a = (b <- f a ;; Ok (h b))) ->
  mapM f l = Ok ks -> mapM g l = Ok (map h ks).
Proof.
  intros H E. apply mapM_Forall2 in E. apply mapM_Forall2.
  induction E as [|a b l ks Ha _ IH]; simpl; constructor; [|exact IH].
  now rewrite H, Ha.
Qed.

Lemma scenario_key_question (x : json) :
  scenario_key codegeneration x = (k <- question_key x ;; Ok (ByQuestion k)).
Proof. unfold scenario_key, question_key. now destruct (getitem x _). Qed.

Lemma scenario_key_question_test (x : json) :
  scenario_key testoutputprediction x
  = (k <- question_test_key x ;; Ok (ByQuestionTest (fst k) (snd k))).
Proof.
  unfold scenario_key, question_test_key.
  destruct (getitem x (lit "question_id")); simpl; [|reflexivity].
  now destruct (getitem x (lit "test_id")).
Qed.

Lemma scenario_key_execution (x : json) :
  scenario_key codeexecution x = (k <- execution_key x ;; Ok (ByNumber k)).
Proof.
  unfold scenario_key, execution_key.
  destruct (getitem x (lit "id")) as [id|]; cbn [bind]; [|reflexivity].
  destruct id; cbn [bind]; try reflexivity.
  destruct (nth_error (split 95%N s) 1) as [segment|]; cbn [bind]; [|reflexivity].
  now destruct (int_of segment).
Qed.

Lemma is_dict_not_list (v : json) : is_dict v = true -> is_list v = false.
Proof. now destruct v. Qed.

(** The dict branch of [load_custom_outputs], scenario by scenario. *)
Lemma load_custom_outputs_dicts (s : Scenario) (records : list json) :
  records <> [] -> forallb is_dict records = true ->
  load_custom_outputs s (JList records) =
  match s with
  | codegeneration | selfrepair =>
      in_order <- sorted str_ltb question_key records ;;
      mapM (cleaned_field (lit "code_list")) in_order
  | testoutputprediction =>
      in_order <- sorted pair_ltb question_test_key records ;;
      mapM (cleaned_field (lit "pred_list")) in_order
  | codeexecution =>
      in_order <- sorted Z.ltb execution_key records ;;
      mapM (cleaned_field (lit "pred_list")) in_order
  end.
Proof.
  intros N D. destruct records as [|first rest]; [contradiction|].
  unfold load_custom_outputs. rewrite D.
  simpl in D. apply andb_true_iff in D as [D _].
  now rewrite (is_dict_not_list _ D), D.
Qed.

End Alignment.

(** * The output aligner: the dict branch of [load_custom_outputs] *)

Section AlignerFacts.
Context {interpreter : Interpreter}.

Lemma mapM_then_inv {A B C : Type} (f : A -> result B) (g : A -> result C) (h : B -> C)
    (l : list A) (keys : list C) :
  (forall a, g a = (b <- f a ;; Ok (h b))) ->
  mapM g l = Ok keys -> exists ks, mapM f l = Ok ks /\ keys = map h ks.
Proof.
  intros H; revert keys; induction l as [|a l IH]; intros keys E.
  - injection E as <-. now exists [].
  - destruct (mapM_cons_Ok _ _ _ _ E) as [c [cs [Ha [El ->]]]].
    destruct (IH _ El) as [ks [Ek ->]].
    rewrite H in Ha. destruct (f a) as [b|e] eqn:Fa; simpl in Ha; [|discriminate].
    injection Ha as <-. exists (b :: ks). simpl. now rewrite Fa, Ek.
Qed.

(** With keys that differ from one another, [sorted] does not depend on the
    order of its input. *)
Lemma sorted_order_independent {K : Type} (ltb : K -> K -> bool)
    (key : json -> result K) (l l' : list json) (ks : list K) :
  (forall a, ltb a a = false) ->
  (forall a b c, ltb a b = true -> ltb b c = true -> ltb a c = true) ->
  (forall a b, ltb a b = false -> ltb b a = false -> a = b) ->
  mapM key l = Ok ks -> NoDup ks -> Permutation l l' ->
  sorted ltb key l' = sorted ltb key l.
Proof.
  intros Hi Ht Ho E N P. unfold sorted.
  destruct (mapM_permutation _ _ _ _ P E) as [ks' [E' P']].
  rewrite E, E'. simpl. do 2 f_equal. symmetry.
  pose proof (strict_asym _ ltb Hi Ht) as Ha.
  pose proof (strict_not_after_trans _ ltb Ht Ho) as Hn.
  apply (sorted_unique _ _ ltb Ho).
  - now apply sort_pairs_StronglySorted.
  - now apply sort_pairs_StronglySorted.
  - apply Permutation_NoDup with (l := ks); [|exact N].
    rewrite <- (map_fst_combine ks l (mapM_length _ _ _ E)) at 1.
    apply Permutation_map, Permutation_sym, sort_pairs_permutation.
  - rewrite sort_pairs_permutation, P'.
    apply Permutation_sym, sort_pairs_permutation.
Qed.

Lemma mapM_returns_permutation {A B : Type} (f : A -> result B) (l l' : list A)
    (r : list B) :
  mapM f l = Ok r -> Permutation l l' -> exists r', mapM f l' = Ok r'.
Proof.
  intros E P. destruct (mapM_permutation _ _ _ _ P E) as [r' [E' _]]. now exists r'.
Qed.

Lemma forallb_permutation {A : Type} (p : A -> bool) (l l' : list A) :
  Permutation l l' -> forallb p l = true -> forallb p l' = true.
Proof.
  intros P. rewrite !forallb_forall. intros H x Hx. apply H.
  now apply (Permutation_in _ (Permutation_sym P)).
Qed.

(** One scenario's branch of the proof below: [sorted] returned, so its
    result is a permutation in ascending order of the key [inj] wraps. *)
Ltac aligned_branch key inj key_eq irrefl trans total :=
  match goal with
  | H : bind (sorted ?ltb key ?records) _ = Ok _ |- _ =>
      let in_order := fresh "in_order" in
      let E := fresh "E" in
      destruct (sorted ltb key records) as [in_order|?] eqn:E;
      simpl in H; [|discriminate];
      destruct (sorted_spec _ _ _ _ irrefl trans total E) as [ks [P [Ek S]]];
      exists in_order; split; [exact P|];
      exists (map inj ks); split; [|split];
      [ apply (mapM_then key); [apply key_eq|exact Ek]
      | apply StronglySorted_map with (R := not_after ltb); [|exact S];
        first [now intros [? ?] [? ?] | now auto]
      | exact H ]
  end.

(** The aligned sequence follows the ascending order of the scenario's key. *)
Lemma load_custom_outputs_aligned (s : Scenario) (records aligned : list json) :
  records <> [] -> forallb is_dict records = true ->
  load_custom_outputs s (JList records) = Ok aligned ->
  exists in_order, Permutation records in_order /\ aligned_by_key s in_order aligned.
Proof.
  intros N D H. rewrite (load_custom_outputs_dicts s records N D) in H.
  destruct s.
  - aligned_branch question_key ByQuestion scenario_key_question
      str_ltb_irrefl str_ltb_trans str_ltb_total.
  - aligned_branch question_key ByQuestion scenario_key_question
      str_ltb_irrefl str_ltb_trans str_ltb_total.
  - aligned_branch question_test_key (fun k : str * str => ByQuestionTest (fst k) (snd k))
      scenario_key_question_test pair_ltb_irrefl pair_ltb_trans pair_ltb_total.
  - aligned_branch execution_key ByNumber scenario_key_execution
      Z.ltb_irrefl Z_ltb_trans Z_ltb_total.
Qed.

End AlignerFacts.

(** * Alignment by the scenario's key *)

Section OrderIndependence.
Context {interpreter : Interpreter}.

(** One scenario's branch: the keys differ, so the order of the records
    does not show in what [sorted] returns, and the extraction that returned
    on the records returns on them in any order. *)
Lemma sorted_branch_returns {K : Type} (ltb : K -> K -> bool)
    (key : json -> result K) (f : json -> result json)
    (records records' : list json) (ks : list K) (fields : list json) :
  (forall a, ltb a a = false) ->
  (forall a b c, ltb a b = true -> ltb b c = true -> ltb a c = true) ->
  (forall a b, ltb a b = false -> ltb b a = false -> a = b) ->
  mapM key records = Ok ks -> NoDup ks ->
  mapM f records = Ok fields ->
  Permutation records records' ->
  exists aligned,
    (in_order <- sorted ltb key records ;; mapM f in_order) = Ok aligned
    /\ (in_order <- sorted ltb key records' ;; mapM f in_order) = Ok aligned.
Proof.
  intros Hi Ht Ho E N F P.
  rewrite (sorted_order_independent ltb key records records' ks Hi Ht Ho E N P).
  destruct (sorted ltb key records) as [in_order|e] eqn:S.
  - destruct (sorted_spec _ _ _ _ Hi Ht Ho S) as [_ [P' _]].
    destruct (mapM_returns_permutation _ _ _ _ F P') as [aligned A].
    exists aligned. simpl. now rewrite A.
  - unfold sorted in S. rewrite E in S. discriminate.
Qed.

(** One scenario's branch of the proof below: the scenario's keys are the
    keys of the branch's [sorted], wrapped, and differ with them. *)
Ltac order_free_branch key key_eq irrefl trans total :=
  match goal with
  | K : mapM (scenario_key _) _ = Ok ?keys, Nk : NoDup ?keys,
    F : mapM _ _ = Ok _, P : Permutation _ _ |- _ =>
      let ks := fresh "ks" in
      let E := fresh "E" in
      destruct (mapM_then_inv key _ _ _ _ key_eq K) as [ks [E ->]];
      apply NoDup_map_inv in Nk;
      exact (sorted_branch_returns _ _ _ _ _ _ _ irrefl trans total E Nk F P)
  end.

(** C8, as the code has it.  The benchmark is not consulted: what counts
    is that the collection is not empty, that each of its records has a sort
    key and a candidate field that can be extracted, and that the sort keys
    differ from one another, as those of a benchmark whose instances are told
    apart by them do.  Then alignment returns, the aligned sequence has one
    entry per key, in ascending order of the keys, and it is the same for
    every order in which the records come. *)
Theorem load_custom_outputs_order_independent (s : Scenario)
    (records records' : list json) (keys bench_keys : list sort_key)
    (fields : list json) :
  records <> [] -> forallb is_dict records = true ->
  mapM (scenario_key s) records = Ok keys ->
  mapM (cleaned_field (candidate_field s)) records = Ok fields ->
  Permutation keys bench_keys -> NoDup bench_keys ->
  Permutation records records' ->
  exists aligned in_order,
    load_custom_outputs s (JList records) = Ok aligned
    /\ load_custom_outputs s (JList records') = Ok aligned
    /\ length aligned = length bench_keys
    /\ Permutation records in_order
    /\ aligned_by_key s in_order aligned.
Proof.
  intros Ne D K F PK N P.
  assert (Ne' : records' <> []).
  { intros ->. apply Ne. now apply Permutation_nil, Permutation_sym. }
  pose proof (forallb_permutation _ _ _ P D) as D'.
  assert (Nk : NoDup keys)
    by (apply Permutation_NoDup with (l := bench_keys); [now symmetry|exact N]).
  assert (R : exists aligned,
             load_custom_outputs s (JList records) = Ok aligned
             /\ load_custom_outputs s (JList records') = Ok aligned).
  { rewrite (load_custom_outputs_dicts s records Ne D),
            (load_custom_outputs_dicts s records' Ne' D').
    destruct s.
    - order_free_branch question_key scenario_key_question
        str_ltb_irrefl str_ltb_trans str_ltb_total.
    - order_free_branch question_key scenario_key_question
        str_ltb_irrefl str_ltb_trans str_ltb_total.
    - order_free_branch question_test_key scenario_key_question_test
        pair_ltb_irrefl pair_ltb_trans pair_ltb_total.
    - order_free_branch execution_key scenario_key_execution
        Z.ltb_irrefl Z_ltb_trans Z_ltb_total. }
  destruct R as [aligned [L L']].
  destruct (load_custom_outputs_aligned s records aligned Ne D L)
    as [in_order [P' A]].
  exists aligned, in_order. repeat split; try assumption.
  destruct A as [ks [_ [_ M]]].
  rewrite (mapM_length _ _ _ M), <- (Permutation_length P').
  rewrite <- (mapM_length _ _ _ K). now apply Permutation_length.
Qed.

End OrderIndependence.

Lemma load_custom_outputs_order_independent_witness :
  exists aligned in_order,
    load_custom_outputs (interpreter := example_interpreter) codegeneration
      (JList [ obj [("question_id", text "B"); ("code_list", strs ["x=2"])];
               obj [("question_id", text "A"); ("code_list", strs ["x=1"])] ])
    = Ok aligned
    /\ load_custom_outputs (interpreter := example_interpreter) codegeneration
         (JList [ obj [("question_id", text "A"); ("code_list", strs ["x=1"])];
                  obj [("question_id", text "B"); ("code_list", strs ["x=2"])] ])
       = Ok aligned
    /\ length aligned = length [ByQuestion (lit "A"); ByQuestion (lit "B")]
    /\ Permutation
         [ obj [("question_id", text "B"); ("code_list", strs ["x=2"])];
           obj [("question_id", text "A"); ("code_list", strs ["x=1"])] ]
         in_order
    /\ aligned_by_key (interpreter := example_interpreter) codegeneration
         in_order aligned.
Proof.
  apply (load_custom_outputs_order_independent (interpreter := example_interpreter)
           codegeneration _ _
           [ByQuestion (lit "B"); ByQuestion (lit "A")]
           [ByQuestion (lit "A"); ByQuestion (lit "B")]
           [strs ["x=2"]; strs ["x=1"]]).
  - discriminate.
  - reflexivity.
  - reflexivity.
  - reflexivity.
  - apply perm_swap.
  - repeat constructor; simpl; intuition discriminate.
  - apply perm_swap.
Defined.

(** C8, as stated, fails where two records share a sort key: they come out
    in the order in which they came in.  Here the two [id]s differ and name
    the same number.  It fails as well for no records against no instances:
    alignment raises at [custom_outputs[0]] and returns no sequence. *)
Lemma load_custom_outputs_ties_keep_input_order :
  load_custom_outputs (interpreter := example_interpreter) codeexecution (JList [])
  = Raise IndexError
  /\ NoDup [lit "a_1"; lit "b_1"]
  /\ Permutation
       [ obj [("id", text "a_1"); ("pred_list", strs ["x"])];
         obj [("id", text "b_1"); ("pred_list", strs ["y"])] ]
       [ obj [("id", text "b_1"); ("pred_list", strs ["y"])];
         obj [("id", text "a_1"); ("pred_list", strs ["x"])] ]
  /\ load_custom_outputs (interpreter := example_interpreter) codeexecution
       (JList [ obj [("id", text "a_1"); ("pred_list", strs ["x"])];
                obj [("id", text "b_1"); ("pred_list", strs ["y"])] ])
     = Ok [strs ["x"]; strs ["y"]]
  /\ load_custom_outputs (interpreter := example_interpreter) codeexecution
       (JList [ obj [("id", text "b_1"); ("pred_list", strs ["y"])];
                obj [("id", text "a_1"); ("pred_list", strs ["x"])] ])
     = Ok [strs ["y"]; strs ["x"]]
  /\ [strs ["x"]; strs ["y"]] <> [strs ["y"]; strs ["x"]].
Proof.
  split; [reflexivity|split; [|split; [|split; [|split]]]].
  - repeat constructor; simpl; intuition discriminate.
  - apply perm_swap.
  - reflexivity.
  - reflexivity.
  - discriminate.
Qed.

(** * Shape violations *)

Section ShapeFacts.
Context {interpreter : Interpreter}.

Lemma sorted_permutation {K : Type} (ltb : K -> K -> bool) (key : json -> result K)
    (l r : list json) :
  sorted ltb key l = Ok r -> Permutation l r.
Proof.
  unfold sorted. destruct (mapM key l) as [ks|e] eqn:E; simpl; [|discriminate].
  intros [= <-].
  rewrite <- (map_snd_combine ks l (mapM_length _ _ _ E)) at 1.
  apply Permutation_map, Permutation_sym, sort_pairs_permutation.
Qed.

Lemma sorted_then_raises {K : Type} (ltb : K -> K -> bool) (key : json -> result K)
    (f : json -> result json) (l : list json) (r : json) :
  In r l -> raises (key r) \/ raises (f r) ->
  raises (in_order <- sorted ltb key l ;; mapM f in_order).
Proof.
  intros I H.
  destruct (sorted ltb key l) as [in_order|e] eqn:S; simpl; [|now exists e].
  destruct H as [H|H].
  - exfalso. unfold sorted in S.
    destruct (mapM_raises key l r I H) as [e E]. rewrite E in S. discriminate.
  - apply mapM_raises with (a := r); [|exact H].
    now apply (Permutation_in _ (sorted_permutation _ _ _ _ S)).
Qed.

Lemma getitem_missing (members : list (str * json)) (field : str) :
  lookup field members = None -> getitem (JDict members) field = Raise (KeyError field).
Proof. simpl. now intros ->. Qed.

Lemma cleaned_field_missing (members : list (str * json)) (field : str) :
  lookup field members = None -> raises (cleaned_field field (JDict members)).
Proof.
  intros H. unfold cleaned_field. rewrite (getitem_missing _ _ H).
  now exists (KeyError field).
Qed.

(** A record of dicts that lacks a field of its scenario stops the dict
    branch, at the key or at the extraction. *)
Lemma lacking_record_raises (s : Scenario) (r : json) :
  lacks_field s r ->
  match s with
  | codegeneration | selfrepair =>
      raises (question_key r) \/ raises (cleaned_field (lit "code_list") r)
  | testoutputprediction =>
      raises (question_test_key r) \/ raises (cleaned_field (lit "pred_list") r)
  | codeexecution =>
      raises (execution_key r) \/ raises (cleaned_field (lit "pred_list") r)
  end.
Proof.
  intros [members [field [-> [I L]]]].
  destruct s; simpl in I;
    repeat (destruct I as [<-|I]; [|]); try contradiction;
    try (right; now apply cleaned_field_missing);
    left.
  - unfold question_key. rewrite (getitem_missing _ _ L). now eexists.
  - unfold question_key. rewrite (getitem_missing _ _ L). now eexists.
  - unfold question_test_key. rewrite (getitem_missing _ _ L). now eexists.
  - unfold question_test_key.
    destruct (getitem (JDict members) (lit "question_id")) as [q|e];
      cbn [bind]; [|now eexists].
    rewrite (getitem_missing _ _ L). now eexists.
  - unfold execution_key. rewrite (getitem_missing _ _ L). now eexists.
Qed.

Lemma forallb_false_in {A : Type} (p : A -> bool) (l : list A) (a : A) :
  In a l -> p a = false -> forallb p l = false.
Proof.
  intros I H. destruct (forallb p l) eqn:E; [|reflexivity].
  rewrite forallb_forall in E. now rewrite (E a I) in H.
Qed.

(** What [load_custom_outputs] does with a shape violation, when the first
    record is a list or a dict. *)
Lemma load_custom_outputs_shape (s : Scenario) (first : json) (rest : list json) :
  is_list first || is_dict first = true ->
  (mixes_shapes (first :: rest) ->
   load_custom_outputs s (JList (first :: rest)) = Raise AssertionError)
  /\ ((exists r, In r (first :: rest) /\ lacks_field s r) ->
      raises (load_custom_outputs s (JList (first :: rest)))).
Proof.
  intros F. split.
  - intros [[rl [Il Ll]] [rd [Id Ld]]]. unfold load_custom_outputs.
    destruct (is_list first) eqn:E.
    + now rewrite (forallb_false_in _ _ rd Id (is_dict_not_list _ Ld)).
    + simpl in F. rewrite F.
      assert (is_dict rl = false) by now destruct rl.
      now rewrite (forallb_false_in _ _ rl Il).
  - intros [r [I L]].
    assert (Dr : is_dict r = true) by now destruct L as [m [f [-> _]]].
    unfold load_custom_outputs.
    destruct (is_list first) eqn:E.
    + rewrite (forallb_false_in _ _ r I (is_dict_not_list _ Dr)).
      now exists AssertionError.
    + simpl in F. rewrite F.
      destruct (forallb is_dict (first :: rest)); [|now exists AssertionError].
      pose proof (lacking_record_raises s r L) as R.
      destruct s; now apply sorted_then_raises with (r := r).
Qed.

End ShapeFacts.

Section RunFacts.
Context {interpreter : Interpreter} {collaborators : Collaborators}.

(** Nothing in [main] catches what [load_custom_outputs] raises. *)
Lemma main_load_raises (args : Args) (benchmark : list instance) (document : json)
    (e : exn) :
  load_custom_outputs (scenario args) document = Raise e ->
  main args benchmark document = Raise e.
Proof. intros H. unfold main. now rewrite H. Qed.

(** Where the shape checks of [main] hold.  The shape is read off the first
    record: an empty collection stops the run at [custom_outputs[0]]; when
    the first record is a list or a dict, a collection that holds both shapes
    fails the assertion, and a dict that lacks a field its scenario requires
    stops the run at the assertion, the sort key or the extraction. *)
Theorem main_shape_violation_fatal (args : Args) (benchmark : list instance) :
  main args benchmark (JList []) = Raise IndexError
  /\ (forall first rest,
        is_list first || is_dict first = true ->
        mixes_shapes (first :: rest) ->
        main args benchmark (JList (first :: rest)) = Raise AssertionError)
  /\ (forall first rest,
        is_list first || is_dict first = true ->
        (exists r, In r (first :: rest) /\ lacks_field (scenario args) r) ->
        raises (main args benchmark (JList (first :: rest)))).
Proof.
  split; [reflexivity|split].
  - intros first rest F M. apply main_load_raises.
    now apply (proj1 (load_custom_outputs_shape (scenario args) first rest F)).
  - intros first rest F L.
    destruct (proj2 (load_custom_outputs_shape (scenario args) first rest F) L)
      as [e E].
    exists e. now apply main_load_raises.
Qed.

End RunFacts.

Lemma main_shape_violation_fatal_witness :
  main (interpreter := example_interpreter) (collaborators := example_collaborators)
    (example_args codegeneration) [lit "A"; lit "B"] (JList [])
  = Raise IndexError
  /\ main (interpreter := example_interpreter) (collaborators := example_collaborators)
       (example_args codegeneration) [lit "A"; lit "B"]
       (JList [ strs ["x=1"];
                obj [("question_id", text "B"); ("code_list", strs ["x=2"])] ])
     = Raise AssertionError
  /\ raises
       (main (interpreter := example_interpreter)
          (collaborators := example_collaborators)
          (example_args codegeneration) [lit "A"; lit "B"]
          (JList [ obj [("question_id", text "A"); ("code_list", strs ["x=1"])];
                   obj [("question_id", text "B")] ])).
Proof.
  destruct (main_shape_violation_fatal (interpreter := example_interpreter)
              (collaborators := example_collaborators)
              (example_args codegeneration) [lit "A"; lit "B"]) as [E [M L]].
  split; [exact E|split].
  - apply M; [reflexivity|]. split.
    + exists (strs ["x=1"]). split; [now left|reflexivity].
    + eexists. split; [right; now left|reflexivity].
  - apply L; [reflexivity|].
    exists (obj [("question_id", text "B")]). split; [right; now left|].
    exists [(lit "question_id", text "B")], (lit "code_list").
    split; [reflexivity|split; [right; now left|reflexivity]].
Defined.

(** C2.  A shape violation that is not fatal: the first record is neither
    a list nor a dict, so that neither assertion is reached; a list and a
    dict follow, the dict without any field its scenario requires; the
    document is taken as it came and the run ends without an exception. *)
Lemma main_shape_unchecked_after_other_first :
  mixes_shapes [text "ab"; strs ["x"]; obj [("k", JInt 1)]]
  /\ (exists r, In r [text "ab"; strs ["x"]; obj [("k", JInt 1)]]
                /\ lacks_field codegeneration r)
  /\ load_custom_outputs (interpreter := example_interpreter) codegeneration
       (JList [text "ab"; strs ["x"]; obj [("k", JInt 1)]])
     = Ok [text "ab"; strs ["x"]; obj [("k", JInt 1)]]
  /\ ~ raises
         (main (interpreter := example_interpreter)
            (collaborators := example_collaborators)
            (example_args codegeneration) [lit "A"; lit "B"; lit "C"]
            (JList [text "ab"; strs ["x"]; obj [("k", JInt 1)]])).
Proof.
  split; [|split; [|split]].
  - split.
    + exists (strs ["x"]). split; [right; now left|reflexivity].
    + eexists. split; [right; right; now left|reflexivity].
  - exists (obj [("k", JInt 1)]). split; [right; right; now left|].
    exists [(lit "k", JInt 1)], (lit "question_id").
    split; [reflexivity|split; [now left|reflexivity]].
  - reflexivity.
  - intros [e H]. vm_compute in H. discriminate.
Qed.

(** * Positional zips *)

Lemma mapM_app {A B : Type} (f : A -> result B) (l l' : list A) :
  mapM f (l ++ l') = (r <- mapM f l ;; r' <- mapM f l' ;; Ok (r ++ r')).
Proof.
  induction l as [|a l IH]; simpl.
  - now destruct (mapM f l').
  - destruct (f a) as [b|e]; simpl; [|reflexivity].
    rewrite IH. destruct (mapM f l) as [r|e]; simpl; [|reflexivity].
    now destruct (mapM f l').
Qed.

Section ZipFacts.
Context {interpreter : Interpreter} {collaborators : Collaborators}.

Lemma save_results_length (benchmark : list instance) (custom_outputs : list (list json)) :
  length (save_results benchmark custom_outputs)
  = Nat.min (length benchmark) (length custom_outputs).
Proof. unfold save_results, zip. now rewrite length_map, length_combine. Qed.

Lemma save_results_firstn (benchmark : list instance) (custom_outputs : list (list json)) :
  save_results benchmark custom_outputs
  = save_results benchmark (firstn (length benchmark) custom_outputs).
Proof. unfold save_results, zip. now rewrite <- combine_firstn_l. Qed.

(** A run given one list of candidates more than there are instances ends
    as the run without that list. *)
Lemma main_ignores_extra_list (args : Args) (benchmark : list instance)
    (lists : list json) (extra : json) (kept : list json) :
  lists <> [] -> forallb is_list (lists ++ [extra]) = true ->
  length lists = length benchmark ->
  (outputs_list <- iterate extra ;; filterM is_valid_python outputs_list) = Ok kept ->
  main args benchmark (JList (lists ++ [extra])) = main args benchmark (JList lists).
Proof.
  intros Ne F L K.
  pose proof F as F'. rewrite forallb_app in F'. apply andb_true_iff in F' as [Fl _].
  destruct lists as [|first rest]; [contradiction|].
  assert (Hf : is_list first = true).
  { simpl in Fl. now apply andb_true_iff in Fl as [Hf _]. }
  assert (H1 : load_custom_outputs (scenario args) (JList ((first :: rest) ++ [extra]))
               = Ok ((first :: rest) ++ [extra])).
  { cbn [app] in F |- *. unfold load_custom_outputs. now rewrite F, Hf. }
  assert (H2 : load_custom_outputs (scenario args) (JList (first :: rest))
               = Ok (first :: rest)).
  { unfold load_custom_outputs. now rewrite Fl, Hf. }
  unfold main. rewrite H1, H2. cbn [bind].
  unfold filter_valid. rewrite mapM_app.
  destruct (mapM _ (first :: rest)) as [rs|e] eqn:E; cbn [bind]; [|reflexivity].
  cbn [mapM]. rewrite K. cbn [bind].
  rewrite (save_results_firstn benchmark (rs ++ [kept])).
  rewrite firstn_app, <- L, <- (mapM_length _ _ _ E), firstn_all, Nat.sub_diag.
  cbn [firstn]. now rewrite app_nil_r.
Qed.

(** C1, as the code has it.  No zip checks a length: each stops at the end
    of its shortest argument and raises nothing.  The save results are as
    many as the shorter of benchmark and candidates, built from the first
    candidates; the evaluated results are as many as the shortest of the
    three collections, of the four for code generation; and, with at least
    one instance, a run given lists of candidates, one more than there are
    instances, ends as the run without the last of them, when the filter
    returns on that one. *)
Theorem zips_stop_at_shortest :
  (forall benchmark custom_outputs,
      length (save_results benchmark custom_outputs)
      = Nat.min (length benchmark) (length custom_outputs)
      /\ save_results benchmark custom_outputs
         = save_results benchmark (firstn (length benchmark) custom_outputs))
  /\ (forall s benchmark combined graded_lists metrics,
        s <> codegeneration ->
        exists evaluated,
          save_eval_results s benchmark combined graded_lists metrics = Ok evaluated
          /\ length evaluated
             = Nat.min (Nat.min (length benchmark) (length combined))
                       (length graded_lists))
  /\ (forall benchmark combined graded_lists metrics evaluated,
        save_eval_results codegeneration benchmark combined graded_lists metrics
        = Ok evaluated ->
        exists m metadatas,
          nth_error metrics 2 = Some m /\ metadatas_of m = Ok metadatas
          /\ length evaluated
             = Nat.min (Nat.min (Nat.min (length benchmark) (length combined))
                                (length graded_lists))
                       (length metadatas))
  /\ (forall args benchmark lists extra kept,
        lists <> [] -> forallb is_list (lists ++ [extra]) = true ->
        length lists = length benchmark ->
        (outputs_list <- iterate extra ;; filterM is_valid_python outputs_list)
        = Ok kept ->
        main args benchmark (JList (lists ++ [extra]))
        = main args benchmark (JList lists)).
Proof.
  split; [|split; [|split]].
  - intros. split; [apply save_results_length|apply save_results_firstn].
  - intros s benchmark combined graded_lists metrics N.
    unfold save_eval_results.
    destruct (Scenario_eqb s codegeneration) eqn:E; [now destruct s|].
    eexists. split; [reflexivity|].
    unfold zip3. now rewrite length_map, !length_combine.
  - intros benchmark combined graded_lists metrics evaluated H.
    unfold save_eval_results in H. cbn [Scenario_eqb] in H.
    destruct (nth_error metrics 2) as [m|]; [|discriminate].
    destruct (metadatas_of m) as [metadatas|e] eqn:M; cbn [bind] in H; [|discriminate].
    injection H as <-. exists m, metadatas. repeat split; [exact M|].
    unfold zip4. now rewrite length_map, !length_combine.
  - apply main_ignores_extra_list.
Qed.

End ZipFacts.

Lemma zips_stop_at_shortest_witness :
  main (interpreter := example_interpreter) (collaborators := example_collaborators)
    (example_args selfrepair) [lit "A"; lit "B"]
    (JList ([strs ["x=1"]; strs ["x=2"]] ++ [strs ["x=3"]]))
  = main (interpreter := example_interpreter) (collaborators := example_collaborators)
      (example_args selfrepair) [lit "A"; lit "B"]
      (JList [strs ["x=1"]; strs ["x=2"]])
  /\ exists evaluated,
       save_eval_results (collaborators := example_collaborators) selfrepair
         [lit "A"; lit "B"] [([], [])] [[true]; [false]; [true]] []
       = Ok evaluated
       /\ length evaluated = 1.
Proof.
  destruct (zips_stop_at_shortest (interpreter := example_interpreter)
              (collaborators := example_collaborators)) as [_ [Z [_ M]]].
  split.
  - apply M with (kept := [text "x=3"]); [discriminate|reflexivity|reflexivity|reflexivity].
  - apply (Z selfrepair [lit "A"; lit "B"] [([], [])] [[true]; [false]; [true]] []).
    discriminate.
Defined.

(** C1, as stated, fails: two lists of candidates against a benchmark of
    one instance raise nothing; the run ends, and the results file holds the
    one instance with the first list. *)
Lemma main_truncates_extra_candidates :
  length [lit "A"] = 1
  /\ length [strs ["x=1"]; strs ["y=2"]] = 2
  /\ exists written,
       main (interpreter := example_interpreter)
         (collaborators := example_collaborators)
         (example_args codegeneration) [lit "A"]
         (JList [strs ["x=1"]; strs ["y=2"]])
       = Ok written
       /\ snd (results_file written) = [(lit "A", [text "x=1"])].
Proof.
  split; [reflexivity|split; [reflexivity|]].
  eexists. split; reflexivity.
Qed.

(** * Cleaning and filtering of the candidates *)

Section Sanitizing.
Context {interpreter : Interpreter}.

Lemma is_valid_python_decided (s : str) :
  syntax_decided s -> is_valid_python (JStr s) = Ok (parses s).
Proof. unfold syntax_decided, parses; simpl. now intros [-> | ->]. Qed.

Lemma filterM_is_valid_python (l : list str) :
  Forall syntax_decided l ->
  filterM is_valid_python (map JStr l) = Ok (map JStr (filter parses l)).
Proof.
  induction 1 as [|s l H _ IH]; [reflexivity|].
  cbn [map filterM filter]. rewrite (is_valid_python_decided s H), IH. cbn [bind].
  now destruct (parses s).
Qed.

Lemma filter_valid_string_lists (lists : list (list str)) :
  Forall (Forall syntax_decided) lists ->
  filter_valid (map string_list lists)
  = Ok (map (fun l => map JStr (filter parses l)) lists).
Proof.
  unfold filter_valid.
  induction 1 as [|l lists H _ IH]; [reflexivity|].
  cbn [map mapM]. unfold string_list at 1. cbn [iterate bind].
  now rewrite (filterM_is_valid_python l H), IH.
Qed.

Lemma mapM_clean_value (raw : list str) :
  mapM clean_value (map JStr raw) = Ok (map JStr (map clean_code_output raw)).
Proof.
  induction raw as [|s raw IH]; [reflexivity|].
  cbn [map mapM clean_value bind]. now rewrite IH.
Qed.

Lemma cleaned_field_strings (field : str) (r : json) (raw : list str) :
  getitem r field = Ok (string_list raw) ->
  cleaned_field field r = Ok (string_list (map clean_code_output raw)).
Proof.
  intros H. unfold cleaned_field. rewrite H. unfold string_list. cbn [bind iterate].
  now rewrite mapM_clean_value.
Qed.

(** C3, as the code has it.  Lists given as lists are filtered as they
    stand: no entry is cleaned.  Lists taken from dicts are cleaned entry by
    entry, then filtered.  In both the filter keeps, in their order, the
    entries that parse, so that as many entries go as do not parse, and a
    list of which none parses is left empty while the run goes on.  All this
    as long as the parser raises nothing but [SyntaxError] on the entries. *)
Theorem candidates_filtered_by_shape :
  (forall s lists,
      lists <> [] -> Forall (Forall syntax_decided) lists ->
      prepared_outputs s (JList (map string_list lists))
      = Ok (map (fun l => map JStr (filter parses l)) lists))
  /\ (forall s records aligned,
        records <> [] -> forallb is_dict records = true ->
        load_custom_outputs s (JList records) = Ok aligned ->
        exists in_order,
          Permutation records in_order
          /\ forall raws,
               Forall2 (fun r raw => getitem r (candidate_field s) = Ok (string_list raw))
                       in_order raws ->
               Forall (Forall syntax_decided) (map (map clean_code_output) raws) ->
               prepared_outputs s (JList records)
               = Ok (map (fun raw => map JStr (sanitized raw)) raws))
  /\ (forall l,
        length (filter parses l)
        = length l - length (filter (fun s => negb (parses s)) l))
  /\ (forall l, (forall s, In s l -> parses s = false) -> filter parses l = []).
Proof.
  split; [|split; [|split]].
  - intros s lists Ne D. unfold prepared_outputs.
    assert (L : load_custom_outputs s (JList (map string_list lists))
                = Ok (map string_list lists)).
    { destruct lists as [|l lists]; [contradiction|].
      unfold load_custom_outputs. cbn [map is_list string_list].
      replace (forallb is_list _) with true; [reflexivity|].
      symmetry. apply forallb_forall. intros x Hx.
      destruct Hx as [<-|Hx]; [reflexivity|].
      apply in_map_iff in Hx as [y [<- _]]. reflexivity. }
    rewrite L. cbn [bind]. now apply filter_valid_string_lists.
  - intros s records aligned Ne D L.
    destruct (load_custom_outputs_aligned s records aligned Ne D L)
      as [in_order [P [keys [_ [_ M]]]]].
    exists in_order. split; [exact P|]. intros raws F S.
    unfold prepared_outputs. rewrite L. cbn [bind].
    assert (E : aligned = map string_list (map (map clean_code_output) raws)).
    { apply mapM_Forall2 in M. clear - M F. revert aligned M.
      induction F as [|r raw in_order raws H _ IH]; intros aligned M;
        inversion M as [|? c ? cs Hc Hcs]; subst; [reflexivity|].
      rewrite (cleaned_field_strings _ _ _ H) in Hc. injection Hc as <-.
      cbn [map]. f_equal. now apply IH. }
    rewrite E, (filter_valid_string_lists _ S). now rewrite map_map.
  - intros l. induction l as [|s l IH]; [reflexivity|].
    cbn [filter]. destruct (parses s); cbn [negb length]; [|exact (
      eq_trans IH (eq_sym (Nat.sub_succ _ _)))].
    rewrite IH.
    pose proof (filter_length_le (fun s => negb (parses s)) l). lia.
  - intros l H. induction l as [|s l IH]; [reflexivity|].
    cbn [filter]. rewrite (H s (or_introl eq_refl)). apply IH.
    intros x Hx. apply H. now right.
Qed.

End Sanitizing.

Lemma candidates_filtered_by_shape_witness :
  prepared_outputs (interpreter := example_interpreter) codegeneration
    (JList [string_list [lit "x=1"; lit "def f(:"]])
  = Ok [[text "x=1"]]
  /\ prepared_outputs (interpreter := example_interpreter) codegeneration
       (JList [JDict [(lit "question_id", text "A");
                      (lit "code_list",
                       string_list [fence_open ++ lit "x=1" ++ fence_close;
                                    lit "def f(:"]) ]])
     = Ok [[text "x=1"]].
Proof.
  destruct (candidates_filtered_by_shape (interpreter := example_interpreter))
    as [L [D _]].
  split.
  - apply (L codegeneration [[lit "x=1"; lit "def f(:"]]); [discriminate|].
    repeat (first [apply Forall_cons | apply Forall_nil]); vm_compute; auto.
  - destruct (D codegeneration
                [JDict [(lit "question_id", text "A");
                        (lit "code_list",
                         string_list [fence_open ++ lit "x=1" ++ fence_close;
                                      lit "def f(:"]) ]]
                [string_list [lit "x=1"; lit "def f(:"]])
      as [in_order [P H]]; [discriminate|reflexivity|reflexivity|].
    apply Permutation_length_1_inv in P. subst in_order.
    apply (H [[fence_open ++ lit "x=1" ++ fence_close; lit "def f(:"]]).
    + repeat constructor.
    + repeat (first [apply Forall_cons | apply Forall_nil]); vm_compute; auto.
Defined.

(** C3, as stated, fails for lists given as lists: their entries reach the
    filter as they came.  An entry with a trailing blank is kept with it,
    and a fenced entry, which cleaning would have turned into code that
    parses, is dropped. *)
Lemma list_shaped_candidates_not_cleaned :
  prepared_outputs (interpreter := example_interpreter) codegeneration
    (JList [string_list [lit "x=1 "]])
  = Ok [[text "x=1 "]]
  /\ sanitized (interpreter := example_interpreter) [lit "x=1 "] = [lit "x=1"]
  /\ prepared_outputs (interpreter := example_interpreter) codegeneration
       (JList [string_list [fence_open ++ lit "x=1" ++ fence_close]])
     = Ok [[]]
  /\ sanitized (interpreter := example_interpreter)
       [fence_open ++ lit "x=1" ++ fence_close]
     = [lit "x=1"].
Proof. repeat split; reflexivity. Qed.

(** * The names of the three files *)

Lemma drop_last_app (n : nat) (stem last : str) :
  length last = n -> drop_last n (stem ++ last) = stem.
Proof.
  intros <-. unfold drop_last. rewrite length_app, Nat.add_sub.
  now rewrite firstn_app, firstn_all, Nat.sub_diag, app_nil_r.
Qed.

Lemma drop_last_short (n : nat) (s : str) : length s <= n -> drop_last n s = [].
Proof.
  intros H. unfold drop_last. now replace (length s - n) with 0 by lia.
Qed.

Section Paths.
Context {collaborators : Collaborators}.

(** C9. With no save name given, the results file is named after the input
    file: the last five characters of its path go, whatever they are, and
    [_<scenario>_output.json] is appended.  A path of five characters or
    fewer goes whole. *)
Theorem output_path_drops_five_characters (args : Args) :
  custom_output_save_name args = None ->
  (forall stem last,
      custom_output_file args = stem ++ last -> length last = 5 ->
      output_path args
      = stem ++ lit "_" ++ scenario_value (scenario args) ++ lit "_output.json")
  /\ (length (custom_output_file args) <= 5 ->
      output_path args
      = lit "_" ++ scenario_value (scenario args) ++ lit "_output.json").
Proof.
  intros N. unfold output_path. rewrite N. split.
  - intros stem last -> L. now rewrite (drop_last_app 5 stem last L).
  - intros L. now rewrite (drop_last_short 5 _ L).
Qed.

End Paths.

Lemma output_path_drops_five_characters_witness :
  output_path (collaborators := example_collaborators)
    {| scenario := codegeneration;
       custom_output_file := lit "runs/out.json";
       custom_output_save_name := None |}
  = lit "runs/out_codegeneration_output.json"
  /\ output_path (collaborators := example_collaborators)
       {| scenario := codeexecution;
          custom_output_file := lit "data.jsonl";
          custom_output_save_name := None |}
     = lit "data._codeexecution_output.json".
Proof.
  split.
  - apply (proj1 (output_path_drops_five_characters
                    (collaborators := example_collaborators)
                    {| scenario := codegeneration;
                       custom_output_file := lit "runs/out.json";
                       custom_output_save_name := None |} eq_refl)
             (lit "runs/out") (lit ".json")); reflexivity.
  - apply (proj1 (output_path_drops_five_characters
                    (collaborators := example_collaborators)
                    {| scenario := codeexecution;
                       custom_output_file := lit "data.jsonl";
                       custom_output_save_name := None |} eq_refl)
             (lit "data.") (lit "jsonl")); reflexivity.
Defined.

(** ** [replace] *)

Lemma replace_from_skip (old new skipped rest : str) :
  replace_from (length skipped) old new (skipped ++ rest) = replace_from 0 old new rest.
Proof.
  induction skipped as [|c skipped IH]; [reflexivity|exact IH].
Qed.

Lemma replace_from_first (old new a b : str) :
  old <> [] -> find old (a ++ old ++ b) = Some (length a) ->
  replace_from 0 old new (a ++ old ++ b) = a ++ new ++ replace_from 0 old new b.
Proof.
  intros Ne. induction a as [|c a IH]; intros F.
  - destruct old as [|x old]; [contradiction|].
    cbn [app replace_from].
    replace (length (x :: old) - 1) with (length old) by (cbn [length]; lia).
    change (x :: old ++ b) with ((x :: old) ++ b).
    rewrite startswith_app. now rewrite replace_from_skip.
  - cbn [app] in F |- *. rewrite find_cons in F. cbn [replace_from].
    destruct (startswith old (c :: a ++ old ++ b)); [discriminate|].
    destruct (find old (a ++ old ++ b)) as [i|] eqn:E; [|discriminate].
    cbn [option_map length] in F. injection F as ->.
    now rewrite (IH eq_refl).
Qed.

Lemma replace_from_none (old new s : str) :
  old <> [] -> find old s = None -> replace_from 0 old new s = s.
Proof.
  intros Ne. induction s as [|c s IH]; intros F; [reflexivity|].
  rewrite find_cons in F. cbn [replace_from].
  destruct (startswith old (c :: s)); [discriminate|].
  destruct (find old s); [discriminate|]. now rewrite IH.
Qed.

Lemma replace_dot_json (new p : str) :
  replace dot_json new p = replace_from 0 dot_json new p.
Proof. reflexivity. Qed.

Lemma dot_json_not_empty : dot_json <> [].
Proof. discriminate. Qed.

(** C10. The other two files are named by replacing [.json] in the path of
    the results file, wherever it occurs, from left to right.  A path that
    holds [.json] once, at its end, gives its stem with [_eval.json] and
    [_eval_all.json]; a path that holds it earlier has it replaced there
    too, and then in what follows; a path without it names all three files
    alike. *)
Theorem eval_paths_replace_every_dot_json :
  (forall stem,
      occurrences dot_json (stem ++ dot_json) = [length stem] ->
      metrics_path (stem ++ dot_json) = stem ++ lit "_eval.json"
      /\ eval_all_path (stem ++ dot_json) = stem ++ lit "_eval_all.json")
  /\ (forall a b,
        find dot_json (a ++ dot_json ++ b) = Some (length a) ->
        metrics_path (a ++ dot_json ++ b) = a ++ lit "_eval.json" ++ metrics_path b
        /\ eval_all_path (a ++ dot_json ++ b)
           = a ++ lit "_eval_all.json" ++ eval_all_path b)
  /\ (forall p,
        find dot_json p = None -> metrics_path p = p /\ eval_all_path p = p).
Proof.
  assert (A : forall new a b,
             find dot_json (a ++ dot_json ++ b) = Some (length a) ->
             replace dot_json new (a ++ dot_json ++ b)
             = a ++ new ++ replace dot_json new b).
  { intros new a b F. rewrite !replace_dot_json.
    now apply replace_from_first; [apply dot_json_not_empty|]. }
  split; [|split].
  - intros stem O.
    assert (F : find dot_json (stem ++ dot_json ++ []) = Some (length stem))
      by (unfold find; now rewrite app_nil_r, O).
    assert (A0 : forall new, replace dot_json new (stem ++ dot_json) = stem ++ new).
    { intros new. pose proof (A new _ _ F) as H.
      rewrite app_nil_r in H. rewrite H. now rewrite replace_dot_json, app_nil_r. }
    unfold metrics_path, eval_all_path. fold dot_json. now rewrite !A0.
  - intros a b F. unfold metrics_path, eval_all_path. fold dot_json.
    now rewrite !(A _ _ _ F).
  - intros p F. unfold metrics_path, eval_all_path. fold dot_json.
    rewrite !replace_dot_json.
    now rewrite !(replace_from_none _ _ _ dot_json_not_empty F).
Qed.

Lemma eval_paths_replace_every_dot_json_witness :
  (metrics_path (lit "runs/out_codegeneration_output.json")
   = lit "runs/out_codegeneration_output_eval.json"
   /\ eval_all_path (lit "runs/out_codegeneration_output.json")
      = lit "runs/out_codegeneration_output_eval_all.json")
  /\ (metrics_path (lit "a.json/b.json") = lit "a_eval.json/b_eval.json"
      /\ eval_all_path (lit "a.json/b.json") = lit "a_eval_all.json/b_eval_all.json")
  /\ (metrics_path (lit "results.txt") = lit "results.txt"
      /\ eval_all_path (lit "results.txt") = lit "results.txt").
Proof.
  destruct eval_paths_replace_every_dot_json as [Once [First None]].
  split; [|split].
  - apply (Once (lit "runs/out_codegeneration_output")). reflexivity.
  - apply (First (lit "a") (lit "/b.json")). reflexivity.
  - apply (None (lit "results.txt")). reflexivity.
Defined.

(** * The validity check: [is_valid_python] *)

(** C6.  [is_valid_python] answers with what [ast.parse] did: [True] when
    it returned a tree, [False] when it raised [SyntaxError], the one
    exception that is caught.  Any other exception that [ast.parse] raises
    on a string leaves [is_valid_python] as it is. *)
Theorem is_valid_python_catches_syntax_errors_only
    (interpreter : Interpreter) (s : str) :
  (ast_parse s = Parsed -> is_valid_python (JStr s) = Ok true)
  /\ (ast_parse s = ParseRaises SyntaxError -> is_valid_python (JStr s) = Ok false)
  /\ (forall e, ast_parse s = ParseRaises e -> e <> SyntaxError ->
                is_valid_python (JStr s) = Raise e).
Proof.
  unfold is_valid_python. split; [|split].
  - now intros ->.
  - now intros ->.
  - intros e -> N. now destruct e.
Qed.

Lemma is_valid_python_catches_syntax_errors_only_witness :
  is_valid_python (interpreter := example_interpreter)
    (JStr (lit "def f():" ++ [nl] ++ lit "    return 1"))
  = Ok true
  /\ is_valid_python (interpreter := example_interpreter) (text "def f(:") = Ok false
  /\ is_valid_python (interpreter := example_interpreter) (JStr [0%N])
     = Raise ValueError.
Proof.
  split; [|split].
  - apply (proj1 (is_valid_python_catches_syntax_errors_only example_interpreter _)).
    reflexivity.
  - apply (proj1 (proj2 (is_valid_python_catches_syntax_errors_only
                           example_interpreter _))).
    reflexivity.
  - apply (proj2 (proj2 (is_valid_python_catches_syntax_errors_only
                           example_interpreter _))); [reflexivity|discriminate].
Defined.

(** * A run from end to end *)

(** Code generation on a benchmark of instances [A] and [B], the candidates
    given as dicts in the other order: [A] receives [x=1], [B] receives
    [return 2] without its fence, both lists pass the filter, and the files
    are named after the input file. *)
Example main_code_generation :
  main (interpreter := example_interpreter) (collaborators := example_collaborators)
    (example_args codegeneration) [lit "A"; lit "B"]
    (JList [ JDict [(lit "question_id", text "B");
                    (lit "code_list",
                     string_list [fence_open ++ lit "return 2" ++ fence_close])];
             obj [("question_id", text "A"); ("code_list", strs ["x=1"])] ])
  = Ok (@Build_Written example_collaborators
          (lit "runs/out_codegeneration_output.json",
           [(lit "A", [text "x=1"]); (lit "B", [text "return 2"])])
          (lit "runs/out_codegeneration_output_eval.json",
           [[]; [[true]; [true]]; [[true]; [true]]])
          (lit "runs/out_codegeneration_output_eval_all.json",
           [(lit "A", [text "x=1"], [true]); (lit "B", [text "return 2"], [true])])).
Proof. reflexivity. Qed.

(** * More about [clean_code_output] *)

Lemma strip_no_leading_space (s : str) : no_leading_space (strip s).
Proof. apply rstrip_no_leading_space, lstrip_no_leading_space. Qed.

Lemma strip_no_trailing_space (s : str) : no_leading_space (rev (strip s)).
Proof.
  unfold strip, rstrip. rewrite rev_involutive. apply lstrip_no_leading_space.
Qed.

Lemma strip_of_trimmed (s : str) :
  no_leading_space s -> no_leading_space (rev s) -> strip s = s.
Proof.
  intros L R. unfold strip, rstrip.
  now rewrite (lstrip_fixed s L), (lstrip_fixed (rev s) R), rev_involutive.
Qed.

(** What is left after cleaning holds no fenced block. *)
Lemma re_search_cleaned (s : str) : re_search (clean_code_output s) = None.
Proof.
  unfold clean_code_output. cbv zeta.
  destruct (re_search s) as [g|] eqn:E.
  - destruct (re_search (strip g)) as [g'|] eqn:E'; [|reflexivity].
    exfalso. apply (re_search_group_open _ _ E).
    destruct (re_search_fenced _ _ E') as [pre [post [F _]]].
    apply infix_of_trans with (q := strip g); [|apply strip_infix].
    exact (fence_close_in_fenced _ _ _ _ F).
  - exact (re_search_infix _ _ (strip_infix s) E).
Qed.

Lemma re_search_none_unfenced (s : str) :
  re_search s = None <-> forall pre g post, ~ fenced pre g post s.
Proof.
  split.
  - intros N pre g post F.
    destruct (re_search_complete pre g post) as [g' G].
    rewrite <- F in G. congruence.
  - intros N. destruct (re_search s) as [g|] eqn:E; [|reflexivity].
    destruct (re_search_fenced _ _ E) as [pre [post [F _]]].
    now destruct (N pre g post).
Qed.

Lemma group_infix (pre g post s : str) : fenced pre g post s -> infix_of g s.
Proof.
  intros ->. exists (pre ++ fence_open), (fence_close ++ post).
  now rewrite <- !app_assoc.
Qed.

Lemma infix_of_length (p s : str) : infix_of p s -> length p <= length s.
Proof. intros [a [b ->]]. rewrite !length_app. lia. Qed.

(** The cleaned text is a piece of the text given: cleaning only takes
    characters away, at the two ends of one contiguous piece, and writes
    none. *)
Theorem clean_code_output_is_a_piece (s : str) :
  infix_of (clean_code_output s) s
  /\ length (clean_code_output s) <= length s.
Proof.
  assert (I : infix_of (clean_code_output s) s).
  { unfold clean_code_output. cbv zeta.
    destruct (re_search s) as [g|] eqn:E; [|apply strip_infix].
    destruct (re_search_fenced _ _ E) as [pre [post [F _]]].
    apply infix_of_trans with (q := g); [apply strip_infix|].
    exact (group_infix _ _ _ _ F). }
  split; [exact I|now apply infix_of_length].
Qed.

(** The cleaned text neither starts nor ends with a whitespace character. *)
Theorem clean_code_output_trimmed (s : str) :
  (forall c rest, clean_code_output s = c :: rest -> isspace c = false)
  /\ (forall init c, clean_code_output s = init ++ [c] -> isspace c = false).
Proof.
  unfold clean_code_output. cbv zeta.
  set (t := match re_search s with Some g => g | None => s end).
  split.
  - intros c rest E. pose proof (strip_no_leading_space t) as H.
    now rewrite E in H.
  - intros init c E. pose proof (strip_no_trailing_space t) as H.
    rewrite E, rev_app_distr in H. exact H.
Qed.

Lemma clean_code_output_trimmed_witness :
  isspace 120%N = false /\ isspace 49%N = false.
Proof.
  split.
  - apply (proj1 (clean_code_output_trimmed (lit "  x=1 " ++ [nl])) 120%N (lit "=1")).
    reflexivity.
  - apply (proj2 (clean_code_output_trimmed (lit "  x=1 " ++ [nl])) (lit "x=") 49%N).
    reflexivity.
Defined.

(** The cleaned text holds no block fenced as Python: one pass takes out
    all there is to take. *)
Theorem clean_code_output_leaves_no_block (s pre g post : str) :
  ~ fenced pre g post (clean_code_output s).
Proof. apply re_search_none_unfenced, re_search_cleaned. Qed.

(** The texts that cleaning leaves as they are: those without a block fenced
    as Python that neither start nor end with whitespace, and no others. *)
Theorem clean_code_output_fixed_points (s : str) :
  clean_code_output s = s
  <-> no_leading_space s /\ no_leading_space (rev s)
      /\ forall pre g post, ~ fenced pre g post s.
Proof.
  split.
  - intros E. rewrite <- E. split; [|split].
    + unfold clean_code_output. apply strip_no_leading_space.
    + unfold clean_code_output. apply strip_no_trailing_space.
    + apply re_search_none_unfenced, re_search_cleaned.
  - intros [L [R N]]. unfold clean_code_output. cbv zeta.
    rewrite (proj2 (re_search_none_unfenced s) N).
    now apply strip_of_trimmed.
Qed.

(** * More about the key of the code execution scenario *)

Lemma split_free (sep : char) (a : str) : free_of sep a = true -> split sep a = [a].
Proof.
  induction a as [|c a IH]; simpl; [reflexivity|].
  intros H. apply andb_true_iff in H as [Hc Ha].
  apply negb_true_iff in Hc. rewrite Hc, (IH Ha). reflexivity.
Qed.

Lemma split_at_first (sep : char) (a t : str) :
  free_of sep a = true -> split sep (a ++ sep :: t) = a :: split sep t.
Proof.
  induction a as [|c a IH]; simpl.
  - now rewrite N.eqb_refl.
  - intros H. apply andb_true_iff in H as [Hc Ha].
    apply negb_true_iff in Hc. rewrite Hc, (IH Ha). reflexivity.
Qed.

Section ExecutionKey.
Context {interpreter : Interpreter}.

(** The key of a code execution record is read from the text between the
    first and the second underscore of its [id] (to the end, when there is
    no second): what stands before the first underscore and after the second
    is not looked at.  A record without [id] raises [KeyError], an [id] that
    is no string [AttributeError], an [id] without underscore [IndexError],
    and a segment that [int] does not read [ValueError]. *)
Theorem execution_key_reads_second_segment (members : list (str * json)) :
  (forall a b rest,
      lookup (lit "id") members = Some (JStr (a ++ underscore :: b ++ rest)) ->
      free_of underscore a = true -> free_of underscore b = true ->
      rest = [] \/ (exists r, rest = underscore :: r) ->
      execution_key (JDict members)
      = match int_of b with
        | Some n => Ok n
        | None => Raise ValueError
        end)
  /\ (forall a,
        lookup (lit "id") members = Some (JStr a) -> free_of underscore a = true ->
        execution_key (JDict members) = Raise IndexError)
  /\ (forall v,
        lookup (lit "id") members = Some v -> (forall s, v <> JStr s) ->
        execution_key (JDict members) = Raise AttributeError)
  /\ (lookup (lit "id") members = None ->
      execution_key (JDict members) = Raise (KeyError (lit "id"))).
Proof.
  unfold execution_key, getitem. split; [|split; [|split]].
  - intros a b rest L Fa Fb R. rewrite L. cbn [bind].
    change 95%N with underscore. rewrite (split_at_first _ a _ Fa).
    destruct R as [->|[r ->]].
    + rewrite app_nil_r, (split_free _ b Fb). reflexivity.
    + rewrite (split_at_first _ b _ Fb). reflexivity.
  - intros a L Fa. rewrite L. cbn [bind].
    change 95%N with underscore. now rewrite (split_free _ a Fa).
  - intros v L N. rewrite L. cbn [bind].
    destruct v; try reflexivity. now destruct (N s).
  - now intros ->.
Qed.

End ExecutionKey.

Lemma execution_key_reads_second_segment_witness :
  execution_key (interpreter := example_interpreter)
    (JDict [(lit "id", text "sample_12_b")])
  = Ok 12%Z
  /\ execution_key (interpreter := example_interpreter)
       (JDict [(lit "id", text "sample12")])
     = Raise IndexError
  /\ execution_key (interpreter := example_interpreter)
       (JDict [(lit "id", JInt 12)])
     = Raise AttributeError
  /\ execution_key (interpreter := example_interpreter)
       (JDict [(lit "question_id", text "sample_12")])
     = Raise (KeyError (lit "id")).
Proof.
  destruct (execution_key_reads_second_segment (interpreter := example_interpreter)
              [(lit "id", text "sample_12_b")]) as [S _].
  destruct (execution_key_reads_second_segment (interpreter := example_interpreter)
              [(lit "id", text "sample12")]) as [_ [I _]].
  destruct (execution_key_reads_second_segment (interpreter := example_interpreter)
              [(lit "id", JInt 12)]) as [_ [_ [A _]]].
  destruct (execution_key_reads_second_segment (interpreter := example_interpreter)
              [(lit "question_id", text "sample_12")]) as [_ [_ [_ K]]].
  split; [|split; [|split]].
  - apply (S (lit "sample") (lit "12") (lit "_b")); try reflexivity.
    right. now exists (lit "b").
  - apply (I (lit "sample12")); reflexivity.
  - apply (A (JInt 12)); [reflexivity|discriminate].
  - apply K. reflexivity.
Defined.

(** * More about loading and filtering *)

Lemma filterM_Ok {A : Type} (p : A -> result bool) (l r : list A) :
  filterM p l = Ok r ->
  r = filter (fun a => match p a with Ok true => true | _ => false end) l
  /\ Forall (fun a => exists b, p a = Ok b) l
  /\ Forall (fun a => p a = Ok true) r.
Proof.
  revert r; induction l as [|a l IH]; intros r H.
  - injection H as <-. repeat split; constructor.
  - cbn [filterM] in H. destruct (p a) as [b|e] eqn:Pa; cbn [bind] in H; [|discriminate].
    destruct (filterM p l) as [rest|e] eqn:E; cbn [bind] in H; [|discriminate].
    injection H as <-. destruct (IH rest eq_refl) as [E1 [E2 E3]].
    cbn [filter]. rewrite Pa. split; [|split].
    + destruct b; now rewrite <- E1.
    + constructor; [now exists b|exact E2].
    + destruct b; [constructor; assumption|assumption].
Qed.

Lemma filterM_all_kept {A : Type} (p : A -> result bool) (r : list A) :
  Forall (fun a => p a = Ok true) r -> filterM p r = Ok r.
Proof.
  induction 1 as [|a r Ha _ IH]; [reflexivity|].
  cbn [filterM]. now rewrite Ha, IH.
Qed.

Lemma filterM_raises {A : Type} (p : A -> result bool) (l : list A) (a : A) :
  In a l -> raises (p a) -> raises (filterM p l).
Proof.
  intros I [e E]. induction l as [|x l IH]; [contradiction|].
  cbn [filterM]. destruct I as [->|I].
  - rewrite E. now exists e.
  - destruct (p x) as [b|e']; cbn [bind]; [|now exists e'].
    destruct (IH I) as [e' ->]. now exists e'.
Qed.

Section LoadingFacts.
Context {interpreter : Interpreter}.

Lemma sorted_then_length {K : Type} (ltb : K -> K -> bool) (key : json -> result K)
    (f : json -> result json) (records aligned : list json) :
  (in_order <- sorted ltb key records ;; mapM f in_order) = Ok aligned ->
  length aligned = length records.
Proof.
  destruct (sorted ltb key records) as [in_order|e] eqn:S; cbn [bind]; [|discriminate].
  intros M. rewrite (mapM_length _ _ _ M).
  symmetry. apply Permutation_length, (sorted_permutation _ _ _ _ S).
Qed.

Lemma load_custom_outputs_length (s : Scenario) (document : json) (aligned : list json) :
  load_custom_outputs s document = Ok aligned ->
  exists records,
    document = JList records /\ records <> [] /\ length aligned = length records.
Proof.
  unfold load_custom_outputs.
  destruct document as [| | | | |records|]; try discriminate.
  destruct records as [|first rest]; [discriminate|].
  intros H. exists (first :: rest). split; [reflexivity|split; [discriminate|]].
  destruct (is_list first).
  - destruct (forallb is_list (first :: rest)); [|discriminate]. now injection H as <-.
  - destruct (is_dict first); [|now injection H as <-].
    destruct (forallb is_dict (first :: rest)); [|discriminate].
    destruct s; exact (sorted_then_length _ _ _ _ _ H).
Qed.

(** Whenever the preparation of the candidates returns, the document was a
    list that is not empty, and what is returned holds one list per record of
    it: filtering may empty a list and never takes one away. *)
Theorem prepared_outputs_one_list_per_record (s : Scenario) (document : json)
    (prepared : list (list json)) :
  prepared_outputs s document = Ok prepared ->
  exists records,
    document = JList records /\ records <> []
    /\ length prepared = length records.
Proof.
  unfold prepared_outputs.
  destruct (load_custom_outputs s document) as [aligned|e] eqn:L; cbn [bind];
    [|discriminate].
  intros F. destruct (load_custom_outputs_length _ _ _ L) as [records [D [N E]]].
  exists records. split; [exact D|split; [exact N|]].
  unfold filter_valid in F. now rewrite (mapM_length _ _ _ F).
Qed.

(** Whenever the filter returns, every entry it met was a string on which
    the parser returned or raised [SyntaxError], and each list keeps, in
    their order, exactly the entries that parse. *)
Theorem filter_valid_keeps_what_parses (custom_outputs : list json)
    (kept_lists : list (list json)) :
  filter_valid custom_outputs = Ok kept_lists ->
  Forall2 (fun outputs_list kept =>
             exists entries,
               iterate outputs_list = Ok entries
               /\ Forall decided_string entries
               /\ kept = filter accepted entries)
          custom_outputs kept_lists.
Proof.
  unfold filter_valid. intros H. apply mapM_Forall2 in H.
  induction H as [|outputs_list kept l r H _ IH]; constructor; [|exact IH].
  destruct (iterate outputs_list) as [entries|e]; cbn [bind] in H; [|discriminate].
  exists entries. destruct (filterM_Ok _ _ _ H) as [E [D _]].
  split; [reflexivity|split; [|exact E]].
  clear - D. induction D as [|v entries [b Hb] _ IH]; constructor; [|exact IH].
  unfold is_valid_python in Hb. destruct v; try discriminate.
  exists s. split; [reflexivity|]. unfold syntax_decided.
  destruct (ast_parse s) as [|e]; [now left|]. destruct e; try discriminate. now right.
Qed.

(** What is returned is not empty, and every entry in it was accepted. *)
Lemma prepared_outputs_accepted (s : Scenario) (document : json)
    (prepared : list (list json)) :
  prepared_outputs s document = Ok prepared ->
  prepared <> []
  /\ Forall (Forall (fun v => is_valid_python v = Ok true)) prepared.
Proof.
  unfold prepared_outputs.
  destruct (load_custom_outputs s document) as [aligned|e] eqn:L; cbn [bind];
    [|discriminate].
  intros F. destruct (load_custom_outputs_length _ _ _ L) as [records [_ [N E]]].
  unfold filter_valid in F. split.
  - intros ->. apply mapM_length in F. cbn [length] in F.
    destruct aligned; [|discriminate]. destruct records; [now apply N|discriminate].
  - apply mapM_Forall2 in F. clear - F.
    induction F as [|outputs_list kept l r H _ IH]; constructor; [|exact IH].
    destruct (iterate outputs_list) as [entries|e]; cbn [bind] in H; [|discriminate].
    now destruct (filterM_Ok _ _ _ H) as [_ [_ K]].
Qed.

(** What the preparation returned goes through it unchanged when given
    back as a collection of lists, under any scenario. *)
Theorem prepared_outputs_fixed_point (s s' : Scenario) (document : json)
    (prepared : list (list json)) :
  prepared_outputs s document = Ok prepared ->
  prepared_outputs s' (JList (map JList prepared)) = Ok prepared.
Proof.
  intros H.
  destruct (prepared_outputs_accepted s document prepared H) as [Ne K].
  unfold prepared_outputs.
  assert (L : load_custom_outputs s' (JList (map JList prepared))
              = Ok (map JList prepared)).
  { destruct prepared as [|kept rest]; [contradiction|].
    unfold load_custom_outputs. cbn [map is_list].
    replace (forallb is_list _) with true; [reflexivity|].
    symmetry. apply forallb_forall. intros x [<-|Hx]; [reflexivity|].
    apply in_map_iff in Hx as [y [<- _]]. reflexivity. }
  rewrite L. cbn [bind]. unfold filter_valid.
  clear - K. induction K as [|kept rest Hk _ IH]; [reflexivity|].
  cbn [map mapM iterate bind]. now rewrite (filterM_all_kept _ _ Hk), IH.
Qed.

End LoadingFacts.

Lemma prepared_outputs_one_list_per_record_witness :
  exists records,
    JList [string_list [lit "x=1"; lit "def f(:"]; string_list [lit "def f(:"]]
    = JList records
    /\ records <> []
    /\ length [[text "x=1"]; []] = length records.
Proof.
  apply (prepared_outputs_one_list_per_record (interpreter := example_interpreter)
           codegeneration).
  reflexivity.
Defined.

Lemma filter_valid_keeps_what_parses_witness :
  Forall2 (fun outputs_list kept =>
             exists entries,
               iterate outputs_list = Ok entries
               /\ Forall (decided_string (interpreter := example_interpreter)) entries
               /\ kept = filter (accepted (interpreter := example_interpreter)) entries)
          [string_list [lit "x=1"; lit "def f(:"]; text "ab"]
          [[text "x=1"]; [text "a"; text "b"]].
Proof.
  apply (filter_valid_keeps_what_parses (interpreter := example_interpreter)).
  reflexivity.
Defined.

Lemma prepared_outputs_fixed_point_witness :
  prepared_outputs (interpreter := example_interpreter) codeexecution
    (JList (map JList [[text "x=1"]; []]))
  = Ok [[text "x=1"]; []].
Proof.
  apply (prepared_outputs_fixed_point (interpreter := example_interpreter)
           codegeneration codeexecution
           (JList [string_list [lit "x=1"; lit "def f(:"]; string_list [lit "def f(:"]])).
  reflexivity.
Defined.

(** * Candidates that are not strings *)

Section NonStrings.
Context {interpreter : Interpreter} {collaborators : Collaborators}.

Lemma is_valid_python_non_string (v : json) :
  is_str v = false -> is_valid_python v = Raise TypeError.
Proof. now destruct v. Qed.

Lemma clean_value_non_string (v : json) :
  is_str v = false -> clean_value v = Raise TypeError.
Proof. now destruct v. Qed.

Lemma main_filter_raises (args : Args) (benchmark : list instance) (document : json)
    (custom_outputs : list json) :
  load_custom_outputs (scenario args) document = Ok custom_outputs ->
  raises (filter_valid custom_outputs) ->
  raises (main args benchmark document).
Proof.
  intros L [e E]. exists e. unfold main. rewrite L. cbn [bind]. now rewrite E.
Qed.

(** A candidate that is not a string ends the run, in either shape of the
    collection: among lists the validity check raises on it, among dicts the
    cleaning does. *)
Theorem main_non_string_candidate_fatal (args : Args) (benchmark : list instance) :
  (forall lists l v,
      In l lists -> In v l -> is_str v = false ->
      raises (main args benchmark (JList (map JList lists))))
  /\ (forall records r entries v,
        forallb is_dict records = true -> In r records ->
        getitem r (candidate_field (scenario args)) = Ok (JList entries) ->
        In v entries -> is_str v = false ->
        raises (main args benchmark (JList records))).
Proof.
  split.
  - intros lists l v Il Iv S.
    apply main_filter_raises with (custom_outputs := map JList lists).
    + destruct lists as [|l0 lists]; [contradiction|].
      unfold load_custom_outputs. cbn [map is_list].
      replace (forallb is_list _) with true; [reflexivity|].
      symmetry. apply forallb_forall. intros x [<-|Hx]; [reflexivity|].
      apply in_map_iff in Hx as [y [<- _]]. reflexivity.
    + unfold filter_valid. apply mapM_raises with (a := JList l).
      * now apply in_map.
      * cbn [iterate bind]. apply filterM_raises with (a := v); [exact Iv|].
        exists TypeError. now apply is_valid_python_non_string.
  - intros records r entries v D Ir G Iv S.
    assert (Ne : records <> []) by (intros ->; contradiction).
    assert (C : raises (cleaned_field (candidate_field (scenario args)) r)).
    { unfold cleaned_field. rewrite G. cbn [bind iterate].
      destruct (mapM_raises clean_value entries v Iv) as [e E].
      - exists TypeError. now apply clean_value_non_string.
      - rewrite E. now exists e. }
    assert (R : raises (load_custom_outputs (scenario args) (JList records))).
    { rewrite (load_custom_outputs_dicts _ _ Ne D).
      destruct (scenario args); apply sorted_then_raises with (r := r); auto. }
    destruct R as [e E]. exists e. now apply main_load_raises.
Qed.

End NonStrings.

Lemma main_non_string_candidate_fatal_witness :
  raises (main (interpreter := example_interpreter)
            (collaborators := example_collaborators)
            (example_args codegeneration) [lit "A"]
            (JList (map JList [[text "x=1"; JInt 7]])))
  /\ raises (main (interpreter := example_interpreter)
               (collaborators := example_collaborators)
               (example_args codegeneration) [lit "A"]
               (JList [obj [("question_id", text "A");
                            ("code_list", JList [text "x=1"; JNull])]])).
Proof.
  destruct (main_non_string_candidate_fatal (interpreter := example_interpreter)
              (collaborators := example_collaborators)
              (example_args codegeneration) [lit "A"]) as [L D].
  split.
  - apply (L [[text "x=1"; JInt 7]] [text "x=1"; JInt 7] (JInt 7));
      [now left|right; now left|reflexivity].
  - apply (D _ (obj [("question_id", text "A");
                     ("code_list", JList [text "x=1"; JNull])])
             [text "x=1"; JNull] JNull);
      [reflexivity|now left|reflexivity|right; now left|reflexivity].
Defined.

(** * Records that share a sort key *)

Section Stability.
Variables (K A : Type) (ltb : K -> K -> bool) (class : K -> bool).

(** The keys of the class are not told apart by [<]. *)
Hypothesis class_tied : forall a b, class a = true -> class b = true -> ltb a b = false.

Lemma insert_sorted_class (x : K * A) (l : list (K * A)) :
  filter (fun p => class (fst p)) (insert_sorted ltb x l)
  = filter (fun p => class (fst p)) (x :: l).
Proof.
  induction l as [|y l IH]; [reflexivity|].
  cbn [insert_sorted]. destruct (ltb (fst y) (fst x)) eqn:L; [|reflexivity].
  cbn [filter] in IH |- *. rewrite IH.
  destruct (class (fst x)) eqn:Cx, (class (fst y)) eqn:Cy; try reflexivity.
  now rewrite (class_tied _ _ Cy Cx) in L.
Qed.

Lemma sort_pairs_class (l : list (K * A)) :
  filter (fun p => class (fst p)) (sort_pairs ltb l)
  = filter (fun p => class (fst p)) l.
Proof.
  induction l as [|x l IH]; [reflexivity|].
  cbn [sort_pairs fold_right]. fold (sort_pairs ltb l).
  rewrite insert_sorted_class. cbn [filter]. now rewrite IH.
Qed.

Lemma filter_keyed (key : A -> result K) (ps : list (K * A)) :
  Forall (fun p => key (snd p) = Ok (fst p)) ps ->
  filter (fun a => match key a with Ok k => class k | Raise _ => false end) (map snd ps)
  = map snd (filter (fun p => class (fst p)) ps).
Proof.
  induction 1 as [|p ps H _ IH]; [reflexivity|].
  cbn [map filter]. rewrite H, IH. now destruct (class (fst p)).
Qed.

(** [sorted] leaves the items of a class of tied keys in their order. *)
Lemma sorted_stable (key : A -> result K) (l r : list A) :
  sorted ltb key l = Ok r ->
  filter (fun a => match key a with Ok k => class k | Raise _ => false end) r
  = filter (fun a => match key a with Ok k => class k | Raise _ => false end) l.
Proof.
  unfold sorted. destruct (mapM key l) as [ks|e] eqn:E; cbn [bind]; [|discriminate].
  intros [= <-].
  assert (F : Forall (fun p => key (snd p) = Ok (fst p)) (combine ks l)).
  { apply mapM_Forall2 in E. induction E; cbn [combine]; constructor; auto. }
  assert (F' : Forall (fun p => key (snd p) = Ok (fst p)) (sort_pairs ltb (combine ks l))).
  { rewrite Forall_forall in *. intros p Hp. apply F.
    now apply (Permutation_in _ (sort_pairs_permutation _ _ ltb (combine ks l))). }
  rewrite (filter_keyed key _ F'), sort_pairs_class, <- (filter_keyed key _ F).
  now rewrite (map_snd_combine ks l (mapM_length _ _ _ E)).
Qed.

End Stability.

Lemma sort_key_eqb_eq (a b : sort_key) : sort_key_eqb a b = true -> a = b.
Proof.
  destruct a, b; cbn [sort_key_eqb]; try discriminate.
  - intros H. apply str_eqb_eq in H. now subst.
  - intros H. apply andb_true_iff in H as [H1 H2].
    apply str_eqb_eq in H1, H2. now subst.
  - intros H. apply Z.eqb_eq in H. now subst.
Qed.

Lemma filter_ext_in_bool {A : Type} (f g : A -> bool) (l : list A) :
  (forall a, f a = g a) -> filter f l = filter g l.
Proof. intros H. apply filter_ext. exact H. Qed.

Section StableAlignment.
Context {interpreter : Interpreter}.

(** One scenario's branch: [has_key] is the class of the branch's keys that
    [inj] sends to [k]. *)
Lemma stable_branch {K : Type} (ltb : K -> K -> bool) (key : json -> result K)
    (inj : K -> sort_key) (s : Scenario) (k : sort_key) (records in_order : list json) :
  (forall a, ltb a a = false) ->
  (forall a b, inj a = inj b -> a = b) ->
  (forall x, scenario_key s x = (k' <- key x ;; Ok (inj k'))) ->
  sorted ltb key records = Ok in_order ->
  filter (has_key s k) in_order = filter (has_key s k) records.
Proof.
  intros Hi Hinj Hk S.
  assert (E : forall x, has_key s k x
                        = match key x with
                          | Ok k' => sort_key_eqb k (inj k')
                          | Raise _ => false
                          end).
  { intros x. unfold has_key. rewrite Hk. now destruct (key x). }
  rewrite (filter_ext_in_bool _ _ in_order E), (filter_ext_in_bool _ _ records E).
  apply (sorted_stable K json ltb (fun k' => sort_key_eqb k (inj k'))); [|exact S].
  intros a b Ha Hb. apply sort_key_eqb_eq in Ha, Hb.
  rewrite (Hinj a b) by congruence. apply Hi.
Qed.

(** Alignment is stable: the records of a collection of dicts that have one
    and the same sort key stand in the aligned order as they stood in the
    document.  The aligned sequence is the cleaned candidate field of the
    records in that order. *)
Theorem load_custom_outputs_stable (s : Scenario) (records aligned : list json) :
  records <> [] -> forallb is_dict records = true ->
  load_custom_outputs s (JList records) = Ok aligned ->
  exists in_order,
    Permutation records in_order
    /\ mapM (cleaned_field (candidate_field s)) in_order = Ok aligned
    /\ forall k, filter (has_key s k) in_order = filter (has_key s k) records.
Proof.
  intros N D H. rewrite (load_custom_outputs_dicts s records N D) in H.
  destruct s.
  - destruct (sorted str_ltb question_key records) as [in_order|e] eqn:S;
      cbn [bind] in H; [|discriminate].
    exists in_order. split; [exact (sorted_permutation _ _ _ _ S)|split; [exact H|]].
    intros k. apply (stable_branch str_ltb question_key ByQuestion); auto.
    + apply str_ltb_irrefl.
    + now intros a b [= ->].
    + apply scenario_key_question.
  - destruct (sorted str_ltb question_key records) as [in_order|e] eqn:S;
      cbn [bind] in H; [|discriminate].
    exists in_order. split; [exact (sorted_permutation _ _ _ _ S)|split; [exact H|]].
    intros k. apply (stable_branch str_ltb question_key ByQuestion); auto.
    + apply str_ltb_irrefl.
    + now intros a b [= ->].
    + apply scenario_key_question.
  - destruct (sorted pair_ltb question_test_key records) as [in_order|e] eqn:S;
      cbn [bind] in H; [|discriminate].
    exists in_order. split; [exact (sorted_permutation _ _ _ _ S)|split; [exact H|]].
    intros k.
    apply (stable_branch pair_ltb question_test_key
             (fun p => ByQuestionTest (fst p) (snd p))); auto.
    + apply pair_ltb_irrefl.
    + now intros [a1 a2] [b1 b2] [= -> ->].
    + apply scenario_key_question_test.
  - destruct (sorted Z.ltb execution_key records) as [in_order|e] eqn:S;
      cbn [bind] in H; [|discriminate].
    exists in_order. split; [exact (sorted_permutation _ _ _ _ S)|split; [exact H|]].
    intros k. apply (stable_branch Z.ltb execution_key ByNumber); auto.
    + apply Z.ltb_irrefl.
    + now intros a b [= ->].
    + apply scenario_key_execution.
Qed.

End StableAlignment.

Lemma load_custom_outputs_stable_witness :
  exists in_order,
    Permutation
      [ obj [("id", text "b_2"); ("pred_list", strs ["z"])];
        obj [("id", text "a_1"); ("pred_list", strs ["x"])];
        obj [("id", text "b_1"); ("pred_list", strs ["y"])] ]
      in_order
    /\ mapM (cleaned_field (candidate_field codeexecution)) in_order
       = Ok [strs ["x"]; strs ["y"]; strs ["z"]]
    /\ forall k,
         filter (has_key (interpreter := example_interpreter) codeexecution k) in_order
         = filter (has_key (interpreter := example_interpreter) codeexecution k)
             [ obj [("id", text "b_2"); ("pred_list", strs ["z"])];
               obj [("id", text "a_1"); ("pred_list", strs ["x"])];
               obj [("id", text "b_1"); ("pred_list", strs ["y"])] ].
Proof.
  apply (load_custom_outputs_stable (interpreter := example_interpreter) codeexecution);
    [discriminate|reflexivity|reflexivity].
Defined.

(** * More about the names of the three files *)

Lemma first_dot_json (p : str) :
  infix_of dot_json p ->
  exists a b, p = a ++ dot_json ++ b /\ find dot_json p = Some (length a).
Proof.
  intros [a0 [b0 E]].
  destruct (find_infix dot_json a0 b0) as [i [F L]]. rewrite <- E in F.
  destruct (find_Some _ _ _ F) as [b Eb].
  exists (firstn i p), b. split.
  - now rewrite <- Eb, firstn_skipn.
  - rewrite F, length_firstn, Nat.min_l; [reflexivity|].
    rewrite E, !length_app. lia.
Qed.

(** A results path that holds [.json] and the two paths made from it differ
    from one another. *)
Lemma paths_differ (p : str) :
  infix_of dot_json p ->
  p <> metrics_path p /\ p <> eval_all_path p /\ metrics_path p <> eval_all_path p.
Proof.
  intros I. destruct (first_dot_json p I) as [a [b [E F]]].
  unfold metrics_path, eval_all_path. fold dot_json. rewrite !replace_dot_json.
  rewrite E in F |- *.
  rewrite !(replace_from_first _ _ _ _ dot_json_not_empty F).
  repeat split; intros H; apply app_inv_head in H; cbn in H; discriminate.
Qed.

Lemma paths_coincide (p : str) :
  ~ infix_of dot_json p -> metrics_path p = p /\ eval_all_path p = p.
Proof.
  intros N.
  assert (F : find dot_json p = None).
  { destruct (find dot_json p) as [i|] eqn:F; [|reflexivity].
    exfalso. apply N. destruct (find_Some _ _ _ F) as [b E].
    exists (firstn i p), b. now rewrite <- E, firstn_skipn. }
  unfold metrics_path, eval_all_path. fold dot_json. rewrite !replace_dot_json.
  now rewrite !(replace_from_none _ _ _ dot_json_not_empty F).
Qed.

(** An occurrence of [.json] does not run from a text into a [.json] put
    after it. *)
Lemma startswith_dot_json_app (t : str) :
  t <> [] -> startswith dot_json t = false -> startswith dot_json (t ++ dot_json) = false.
Proof.
  destruct t as [|c1 [|c2 [|c3 [|c4 [|c5 r]]]]]; intros N H;
    [contradiction| | | | |exact H];
    cbn; now rewrite ?andb_false_r.
Qed.

Lemma find_dot_json_appended (stem : str) :
  find dot_json stem = None -> find dot_json (stem ++ dot_json) = Some (length stem).
Proof.
  induction stem as [|c stem IH]; intros F; [reflexivity|].
  rewrite find_cons in F.
  destruct (startswith dot_json (c :: stem)) eqn:S; [discriminate|].
  destruct (find dot_json stem) eqn:F'; [discriminate|].
  cbn [app]. rewrite find_cons.
  change (c :: stem ++ dot_json) with ((c :: stem) ++ dot_json).
  rewrite (startswith_dot_json_app (c :: stem)); [|discriminate|exact S].
  rewrite (IH eq_refl). reflexivity.
Qed.

Section WrittenPaths.
Context {interpreter : Interpreter} {collaborators : Collaborators}.

Lemma main_Ok_paths (args : Args) (benchmark : list instance) (document : json)
    (written : Written) :
  main args benchmark document = Ok written ->
  fst (results_file written) = output_path args
  /\ fst (metrics_file written) = metrics_path (output_path args)
  /\ fst (eval_all_file written) = eval_all_path (output_path args).
Proof.
  unfold main.
  destruct (load_custom_outputs _ _); cbn [bind]; [|discriminate].
  destruct (filter_valid _); cbn [bind]; [|discriminate].
  destruct (sort_and_extract_save_results _ _); cbn [bind]; [|discriminate].
  destruct (get_metrics _ _ _ _) as [metrics|]; cbn [bind]; [|discriminate].
  destruct (match nth_error metrics 1 with Some m => _ | None => _ end);
    cbn [bind]; [|discriminate].
  destruct (save_eval_results _ _ _ _ _); cbn [bind]; [|discriminate].
  intros [= <-]. auto.
Qed.

Lemma default_output_path_has_dot_json (args : Args) :
  custom_output_save_name args = None -> infix_of dot_json (output_path args).
Proof.
  intros N. unfold output_path. rewrite N.
  exists (drop_last 5 (custom_output_file args) ++ lit "_"
          ++ scenario_value (scenario args) ++ lit "_output"), [].
  now rewrite <- !app_assoc.
Qed.

(** The three files of a run that ends have three different paths exactly
    when the path of the results file holds [.json]; when it does not, the
    three are written to one and the same path.  With no save name given the
    path holds [.json], so that the three files differ. *)
Theorem main_writes_three_paths (args : Args) (benchmark : list instance)
    (document : json) (written : Written) :
  main args benchmark document = Ok written ->
  (infix_of dot_json (fst (results_file written)) ->
   fst (results_file written) <> fst (metrics_file written)
   /\ fst (results_file written) <> fst (eval_all_file written)
   /\ fst (metrics_file written) <> fst (eval_all_file written))
  /\ (~ infix_of dot_json (fst (results_file written)) ->
      fst (metrics_file written) = fst (results_file written)
      /\ fst (eval_all_file written) = fst (results_file written))
  /\ (custom_output_save_name args = None ->
      infix_of dot_json (fst (results_file written))).
Proof.
  intros H. destruct (main_Ok_paths _ _ _ _ H) as [-> [-> ->]].
  split; [apply paths_differ|split; [apply paths_coincide|]].
  apply default_output_path_has_dot_json.
Qed.

(** The names of the three files when none is given: for an input file
    [stem.json] and a scenario of value [v], with no [.json] inside
    [stem_v_output], the files are [stem_v_output.json],
    [stem_v_output_eval.json] and [stem_v_output_eval_all.json]. *)
Theorem default_file_names (args : Args) (stem : str) :
  custom_output_save_name args = None ->
  custom_output_file args = stem ++ dot_json ->
  find dot_json (stem ++ lit "_" ++ scenario_value (scenario args) ++ lit "_output")
  = None ->
  output_path args
  = (stem ++ lit "_" ++ scenario_value (scenario args) ++ lit "_output") ++ dot_json
  /\ metrics_path (output_path args)
     = (stem ++ lit "_" ++ scenario_value (scenario args) ++ lit "_output")
         ++ lit "_eval.json"
  /\ eval_all_path (output_path args)
     = (stem ++ lit "_" ++ scenario_value (scenario args) ++ lit "_output")
         ++ lit "_eval_all.json".
Proof.
  intros N E F.
  set (base := stem ++ lit "_" ++ scenario_value (scenario args) ++ lit "_output") in *.
  assert (P : output_path args = base ++ dot_json).
  { unfold output_path. rewrite N, E, (drop_last_app 5 stem dot_json eq_refl).
    unfold base. now rewrite <- !app_assoc. }
  rewrite P. split; [reflexivity|].
  pose proof (find_dot_json_appended base F) as F'.
  rewrite <- (app_nil_r dot_json) in F'.
  unfold metrics_path, eval_all_path. fold dot_json. rewrite !replace_dot_json.
  rewrite <- (app_nil_r (base ++ dot_json)), <- !app_assoc.
  rewrite !(replace_from_first _ _ _ _ dot_json_not_empty F').
  cbn [replace_from]. now rewrite !app_nil_r.
Qed.

End WrittenPaths.

Lemma main_writes_three_paths_witness :
  lit "runs/out_codegeneration_output.json"
  <> lit "runs/out_codegeneration_output_eval.json"
  /\ lit "runs/out_codegeneration_output.json"
     <> lit "runs/out_codegeneration_output_eval_all.json"
  /\ lit "runs/out_codegeneration_output_eval.json"
     <> lit "runs/out_codegeneration_output_eval_all.json".
Proof.
  destruct (main_writes_three_paths (interpreter := example_interpreter)
              (collaborators := example_collaborators)
              (example_args codegeneration) [lit "A"]
              (JList [string_list [lit "x=1"]]) _ eq_refl) as [D [_ I]].
  exact (D (I eq_refl)).
Defined.

Lemma default_file_names_witness :
  output_path (collaborators := example_collaborators) (example_args selfrepair)
  = lit "runs/out_selfrepair_output.json"
  /\ metrics_path (output_path (collaborators := example_collaborators)
                     (example_args selfrepair))
     = lit "runs/out_selfrepair_output_eval.json"
  /\ eval_all_path (output_path (collaborators := example_collaborators)
                      (example_args selfrepair))
     = lit "runs/out_selfrepair_output_eval_all.json".
Proof.
  exact (default_file_names (collaborators := example_collaborators)
           (example_args selfrepair) (lit "runs/out") eq_refl eq_refl eq_refl).
Defined.

(** * The run and the order of the records *)

Section RunOrder.
Context {interpreter : Interpreter} {collaborators : Collaborators}.

Lemma load_custom_outputs_reordered (s : Scenario) (records records' : list json)
    (keys : list sort_key) :
  records <> [] -> forallb is_dict records = true ->
  mapM (scenario_key s) records = Ok keys -> NoDup keys ->
  Permutation records records' ->
  load_custom_outputs s (JList records') = load_custom_outputs s (JList records).
Proof.
  intros Ne D K Nk P.
  assert (Ne' : records' <> []).
  { intros ->. apply Ne. now apply Permutation_nil, Permutation_sym. }
  pose proof (forallb_permutation _ _ _ P D) as D'.
  rewrite (load_custom_outputs_dicts s records Ne D),
          (load_custom_outputs_dicts s records' Ne' D').
  destruct s.
  - destruct (mapM_then_inv question_key _ _ _ _ scenario_key_question K)
      as [ks [E ->]].
    apply NoDup_map_inv in Nk.
    now rewrite (sorted_order_independent _ _ _ _ _ str_ltb_irrefl str_ltb_trans
                   str_ltb_total E Nk P).
  - destruct (mapM_then_inv question_key _ _ _ _ scenario_key_question K)
      as [ks [E ->]].
    apply NoDup_map_inv in Nk.
    now rewrite (sorted_order_independent _ _ _ _ _ str_ltb_irrefl str_ltb_trans
                   str_ltb_total E Nk P).
  - destruct (mapM_then_inv question_test_key _ _ _ _ scenario_key_question_test K)
      as [ks [E ->]].
    apply NoDup_map_inv in Nk.
    now rewrite (sorted_order_independent _ _ _ _ _ pair_ltb_irrefl pair_ltb_trans
                   pair_ltb_total E Nk P).
  - destruct (mapM_then_inv execution_key _ _ _ _ scenario_key_execution K)
      as [ks [E ->]].
    apply NoDup_map_inv in Nk.
    now rewrite (sorted_order_independent _ _ _ _ _ Z.ltb_irrefl Z_ltb_trans
                   Z_ltb_total E Nk P).
Qed.

(** A whole run does not depend on the order in which a collection of dicts
    lists its records, when each has a sort key and the keys differ from one
    another: the files written, or the exception raised, are the same. *)
Theorem main_order_independent (args : Args) (benchmark : list instance)
    (records records' : list json) (keys : list sort_key) :
  records <> [] -> forallb is_dict records = true ->
  mapM (scenario_key (scenario args)) records = Ok keys -> NoDup keys ->
  Permutation records records' ->
  main args benchmark (JList records') = main args benchmark (JList records).
Proof.
  intros Ne D K Nk P. unfold main.
  now rewrite (load_custom_outputs_reordered _ _ _ _ Ne D K Nk P).
Qed.

Lemma mapM_first_raise {A B : Type} (f : A -> result B) (good : list A) (a : A)
    (rest : list A) (e : exn) :
  (forall x, In x good -> exists b, f x = Ok b) -> f a = Raise e ->
  mapM f (good ++ a :: rest) = Raise e.
Proof.
  intros G E. induction good as [|x good IH]; cbn [app mapM].
  - now rewrite E.
  - destruct (G x (or_introl eq_refl)) as [b ->]. cbn [bind].
    rewrite IH; [reflexivity|]. intros y Hy. apply G. now right.
Qed.

Lemma scenario_key_raise {K : Type} (key : json -> result K) (inj : K -> sort_key)
    (s : Scenario) (x : json) :
  (forall x, scenario_key s x = (k <- key x ;; Ok (inj k))) ->
  (forall e, scenario_key s x = Raise e -> key x = Raise e)
  /\ ((exists k, scenario_key s x = Ok k) -> exists k, key x = Ok k).
Proof.
  intros H. rewrite H. destruct (key x) as [k|e']; cbn [bind]; split.
  - discriminate.
  - intros _. now exists k.
  - now intros e [= ->].
  - intros [k Hk]. discriminate.
Qed.

(** The keys are derived in the order of the document, before anything is
    sorted or extracted: the run of a collection of dicts raises what the
    first record without a derivable key raises. *)
Theorem main_raises_first_key_error (args : Args) (benchmark : list instance)
    (good : list json) (r : json) (rest : list json) (e : exn) :
  forallb is_dict (good ++ r :: rest) = true ->
  (forall x, In x good -> exists k, scenario_key (scenario args) x = Ok k) ->
  scenario_key (scenario args) r = Raise e ->
  main args benchmark (JList (good ++ r :: rest)) = Raise e.
Proof.
  intros D G E. apply main_load_raises.
  assert (Ne : good ++ r :: rest <> []) by (destruct good; discriminate).
  rewrite (load_custom_outputs_dicts _ _ Ne D).
  revert G E. destruct (scenario args); intros G E; unfold sorted.
  - rewrite (mapM_first_raise question_key good r rest e); [reflexivity| |].
    + intros x Hx.
      apply (proj2 (scenario_key_raise question_key ByQuestion codegeneration x
                      scenario_key_question)), G, Hx.
    + apply (proj1 (scenario_key_raise question_key ByQuestion codegeneration r
                      scenario_key_question)), E.
  - rewrite (mapM_first_raise question_key good r rest e); [reflexivity| |].
    + intros x Hx.
      apply (proj2 (scenario_key_raise question_key ByQuestion selfrepair x
                      scenario_key_question)), G, Hx.
    + apply (proj1 (scenario_key_raise question_key ByQuestion selfrepair r
                      scenario_key_question)), E.
  - rewrite (mapM_first_raise question_test_key good r rest e); [reflexivity| |].
    + intros x Hx.
      apply (proj2 (scenario_key_raise question_test_key _ testoutputprediction x
                      scenario_key_question_test)), G, Hx.
    + apply (proj1 (scenario_key_raise question_test_key _ testoutputprediction r
                      scenario_key_question_test)), E.
  - rewrite (mapM_first_raise execution_key good r rest e); [reflexivity| |].
    + intros x Hx.
      apply (proj2 (scenario_key_raise execution_key ByNumber codeexecution x
                      scenario_key_execution)), G, Hx.
    + apply (proj1 (scenario_key_raise execution_key ByNumber codeexecution r
                      scenario_key_execution)), E.
Qed.

End RunOrder.

Lemma main_order_independent_witness :
  main (interpreter := example_interpreter) (collaborators := example_collaborators)
    (example_args codegeneration) [lit "A"; lit "B"]
    (JList [ obj [("question_id", text "A"); ("code_list", strs ["x=1"])];
             obj [("question_id", text "B"); ("code_list", strs ["x=2"])] ])
  = main (interpreter := example_interpreter) (collaborators := example_collaborators)
      (example_args codegeneration) [lit "A"; lit "B"]
      (JList [ obj [("question_id", text "B"); ("code_list", strs ["x=2"])];
               obj [("question_id", text "A"); ("code_list", strs ["x=1"])] ]).
Proof.
  apply (main_order_independent (interpreter := example_interpreter)
           (collaborators := example_collaborators)
           (example_args codegeneration) [lit "A"; lit "B"] _ _
           [ByQuestion (lit "B"); ByQuestion (lit "A")]).
  - discriminate.
  - reflexivity.
  - reflexivity.
  - repeat constructor; simpl; intuition discriminate.
  - apply perm_swap.
Defined.

Lemma main_raises_first_key_error_witness :
  main (interpreter := example_interpreter) (collaborators := example_collaborators)
    (example_args codeexecution) [lit "A"; lit "B"; lit "C"]
    (JList ([obj [("id", text "sample_1"); ("pred_list", strs ["x"])]]
            ++ obj [("id", text "sample2"); ("pred_list", strs ["y"])]
            :: [obj [("pred_list", strs ["z"])]]))
  = Raise IndexError.
Proof.
  apply (main_raises_first_key_error (interpreter := example_interpreter)
           (collaborators := example_collaborators)
           (example_args codeexecution)).
  - reflexivity.
  - intros x [<-|[]]. now exists (ByNumber 1).
  - reflexivity.
Defined.

(** * Who is paired with whom *)

Lemma nth_error_combine {A B : Type} (a : list A) (b : list B) (i : nat) :
  nth_error (combine a b) i
  = match nth_error a i, nth_error b i with
    | Some x, Some y => Some (x, y)
    | _, _ => None
    end.
Proof.
  revert b i; induction a as [|x a IH]; intros b i.
  - now destruct i.
  - destruct b as [|y b]; destruct i as [|i]; cbn [combine nth_error]; try reflexivity.
    + now destruct (nth_error a i).
    + apply IH.
Qed.

Section Pairing.
Context {collaborators : Collaborators}.

(** The zips pair by position and by nothing else: save result [i] is built
    from instance [i] and candidate list [i], the list given both as the raw
    and as the extracted outputs, and there is one exactly when both exist;
    evaluated result [i] is built from instance [i], combined result [i] and
    graded list [i], with metadata [i] for code generation and with none for
    the other scenarios. *)
Theorem zips_pair_by_position (benchmark : list instance) (i : nat) :
  (forall custom_outputs,
      nth_error (save_results benchmark custom_outputs) i
      = match nth_error benchmark i, nth_error custom_outputs i with
        | Some inst, Some custom_output =>
            Some (insert_output inst custom_output custom_output)
        | _, _ => None
        end)
  /\ (forall s combined graded_lists metrics,
        s <> codegeneration ->
        exists evaluated,
          save_eval_results s benchmark combined graded_lists metrics = Ok evaluated
          /\ nth_error evaluated i
             = match nth_error benchmark i, nth_error combined i,
                     nth_error graded_lists i with
               | Some inst, Some (outputs_list, extracted_list), Some graded_list =>
                   Some (insert_output_evaluation inst outputs_list extracted_list
                           graded_list None)
               | _, _, _ => None
               end)
  /\ (forall combined graded_lists metrics m metadatas,
        nth_error metrics 2 = Some m -> metadatas_of m = Ok metadatas ->
        exists evaluated,
          save_eval_results codegeneration benchmark combined graded_lists metrics
          = Ok evaluated
          /\ nth_error evaluated i
             = match nth_error benchmark i, nth_error combined i,
                     nth_error graded_lists i, nth_error metadatas i with
               | Some inst, Some (outputs_list, extracted_list), Some graded_list,
                 Some meta =>
                   Some (insert_output_evaluation inst outputs_list extracted_list
                           graded_list (Some meta))
               | _, _, _, _ => None
               end).
Proof.
  split; [|split].
  - intros custom_outputs. unfold save_results, zip.
    rewrite nth_error_map, nth_error_combine.
    destruct (nth_error benchmark i); [|reflexivity].
    now destruct (nth_error custom_outputs i).
  - intros s combined graded_lists metrics N. unfold save_eval_results.
    destruct (Scenario_eqb s codegeneration) eqn:E; [now destruct s|].
    eexists. split; [reflexivity|]. unfold zip3.
    rewrite nth_error_map, !nth_error_combine.
    destruct (nth_error benchmark i); [|reflexivity].
    destruct (nth_error combined i) as [[o e]|]; [|reflexivity].
    now destruct (nth_error graded_lists i).
  - intros combined graded_lists metrics m metadatas M1 M2.
    unfold save_eval_results. cbn [Scenario_eqb]. rewrite M1, M2. cbn [bind].
    eexists. split; [reflexivity|]. unfold zip4.
    rewrite nth_error_map, !nth_error_combine.
    destruct (nth_error benchmark i); [|reflexivity].
    destruct (nth_error combined i) as [[o e]|]; [|reflexivity].
    destruct (nth_error graded_lists i); [|reflexivity].
    now destruct (nth_error metadatas i).
Qed.

End Pairing.

Lemma zips_pair_by_position_witness :
  (exists evaluated,
      save_eval_results (collaborators := example_collaborators) selfrepair
        [lit "A"; lit "B"] [([text "a"], []); ([text "b"], [])] [[true]; [false]] []
      = Ok evaluated
      /\ nth_error evaluated 1 = Some (lit "B", [text "b"], [false]))
  /\ (exists evaluated,
        save_eval_results (collaborators := example_collaborators) codegeneration
          [lit "A"; lit "B"] [([text "a"], []); ([text "b"], [])] [[true]; [false]]
          [[]; []; [[true]; [true]]]
        = Ok evaluated
        /\ nth_error evaluated 1 = Some (lit "B", [text "b"], [false])).
Proof.
  destruct (zips_pair_by_position (collaborators := example_collaborators)
              [lit "A"; lit "B"] 1) as [_ [O C]].
  split.
  - apply (O selfrepair [([text "a"], []); ([text "b"], [])] [[true]; [false]] []).
    discriminate.
  - apply (C [([text "a"], []); ([text "b"], [])] [[true]; [false]]
             [[]; []; [[true]; [true]]] [[true]; [true]] [[true]; [true]]);
      reflexivity.
Defined.

(** * What a collection of dicts hands to the grader *)

Lemma clean_code_output_twice (x : str) :
  clean_code_output (clean_code_output x) = clean_code_output x.
Proof.
  unfold clean_code_output at 1. cbv zeta. rewrite re_search_cleaned.
  unfold clean_code_output. apply strip_fixed.
Qed.

Section Handed.
Context {interpreter : Interpreter}.

Lemma mapM_clean_value_cleaned (entries cleaned : list json) :
  mapM clean_value entries = Ok cleaned ->
  Forall (fun v => exists t, v = JStr (clean_code_output t)) cleaned.
Proof.
  intros H. apply mapM_Forall2 in H.
  induction H as [|v c entries cleaned Hv _ IH]; constructor; [|exact IH].
  destruct v; try discriminate. injection Hv as <-. now exists s.
Qed.

Lemma cleaned_field_cleaned (field : str) (r a : json) :
  cleaned_field field r = Ok a ->
  exists cleaned,
    a = JList cleaned
    /\ Forall (fun v => exists t, v = JStr (clean_code_output t)) cleaned.
Proof.
  unfold cleaned_field.
  destruct (getitem r field) as [v|]; cbn [bind]; [|discriminate].
  destruct (iterate v) as [entries|]; cbn [bind]; [|discriminate].
  destruct (mapM clean_value entries) as [cleaned|] eqn:M; cbn [bind]; [|discriminate].
  intros [= <-]. exists cleaned. split; [reflexivity|].
  exact (mapM_clean_value_cleaned _ _ M).
Qed.

(** Every candidate that a collection of dicts hands on, after cleaning and
    filtering, is a string in cleaned form that the parser accepts: cleaning
    it again changes nothing, so that it holds no fence and no whitespace at
    its ends. *)
Theorem prepared_outputs_of_dicts_are_clean (s : Scenario) (records : list json)
    (prepared : list (list json)) :
  records <> [] -> forallb is_dict records = true ->
  prepared_outputs s (JList records) = Ok prepared ->
  Forall (Forall (fun v => exists t,
                      v = JStr t /\ clean_code_output t = t
                      /\ ast_parse t = Parsed))
         prepared.
Proof.
  intros Ne D H. unfold prepared_outputs in H.
  destruct (load_custom_outputs s (JList records)) as [aligned|] eqn:L;
    cbn [bind] in H; [|discriminate].
  destruct (load_custom_outputs_aligned s records aligned Ne D L)
    as [in_order [_ [keys [_ [_ M]]]]].
  assert (C : Forall (fun a => exists cleaned,
                          a = JList cleaned
                          /\ Forall (fun v => exists t, v = JStr (clean_code_output t))
                                    cleaned) aligned).
  { apply mapM_Forall2 in M. clear - M.
    induction M as [|r a l l' Hr _ IH]; constructor; [|exact IH].
    exact (cleaned_field_cleaned _ _ _ Hr). }
  unfold filter_valid in H. apply mapM_Forall2 in H. clear - H C.
  induction H as [|a kept l l' Ha _ IH]; [constructor|].
  inversion C as [|? ? [cleaned [-> Hc]] C']; subst.
  constructor; [|now apply IH].
  cbn [iterate bind] in Ha. destruct (filterM_Ok _ _ _ Ha) as [-> [_ K]].
  rewrite Forall_forall in *. intros v Hv.
  pose proof (K v Hv) as V. apply filter_In in Hv as [Hv _].
  destruct (Hc v Hv) as [t ->].
  exists (clean_code_output t). split; [reflexivity|split].
  - apply clean_code_output_twice.
  - cbn [is_valid_python] in V.
    destruct (ast_parse (clean_code_output t)) as [|e]; [reflexivity|].
    destruct e; discriminate.
Qed.

End Handed.

Lemma prepared_outputs_of_dicts_are_clean_witness :
  Forall (Forall (fun v => exists t,
                      v = JStr t /\ clean_code_output t = t
                      /\ ast_parse (Interpreter := example_interpreter) t = Parsed))
         [[text "x=1"]].
Proof.
  apply (prepared_outputs_of_dicts_are_clean (interpreter := example_interpreter)
           codegeneration
           [JDict [(lit "question_id", text "A");
                   (lit "code_list",
                    string_list [fence_open ++ lit " x=1" ++ fence_close;
                                 lit "def f(:"]) ]]);
    [discriminate|reflexivity|reflexivity].
Defined.

(** * Alignment by the scenario's key: what is returned *)

Lemma Forall_exists_Forall2 {A B : Type} (P : A -> B -> Prop) (l : list A) :
  Forall (fun a => exists b, P a b) l -> exists bs, Forall2 P l bs.
Proof.
  induction 1 as [|a l [b Hb] _ [bs IH]].
  - now exists [].
  - exists (b :: bs). now constructor.
Qed.

Section AlignmentReturns.
Context {interpreter : Interpreter}.

Lemma mapM_cleaned_field_strings (field : str) (in_order : list json)
    (raws : list (list str)) :
  Forall2 (fun r raw => getitem r field = Ok (string_list raw)) in_order raws ->
  mapM (cleaned_field field) in_order
  = Ok (map (fun raw => string_list (map clean_code_output raw)) raws).
Proof.
  intros F. apply mapM_Forall2.
  induction F as [|r raw in_order raws H _ IH]; cbn [map]; constructor; [|exact IH].
  now apply cleaned_field_strings.
Qed.

(** One scenario's branch of the proof below: the keys can be derived, so
    [sorted] returns; what it returns is in ascending order of the keys, and
    the field of each record in it is a list of strings as it was. *)
Lemma sorted_branch_aligned {K : Type} (ltb : K -> K -> bool)
    (key : json -> result K) (inj : K -> sort_key) (s : Scenario)
    (records : list json) (keys : list sort_key) :
  (forall a, ltb a a = false) ->
  (forall a b c, ltb a b = true -> ltb b c = true -> ltb a c = true) ->
  (forall a b, ltb a b = false -> ltb b a = false -> a = b) ->
  (forall a b, not_after ltb a b -> not_after key_ltb (inj a) (inj b)) ->
  (forall x, scenario_key s x = (k <- key x ;; Ok (inj k))) ->
  mapM (scenario_key s) records = Ok keys ->
  Forall (fun r => exists raw, getitem r (candidate_field s) = Ok (string_list raw))
         records ->
  exists in_order sorted_keys raws,
    Permutation records in_order
    /\ mapM (scenario_key s) in_order = Ok sorted_keys
    /\ StronglySorted (not_after key_ltb) sorted_keys
    /\ Forall2 (fun r raw => getitem r (candidate_field s) = Ok (string_list raw))
               in_order raws
    /\ (in_order <- sorted ltb key records ;;
        mapM (cleaned_field (candidate_field s)) in_order)
       = Ok (map (fun raw => string_list (map clean_code_output raw)) raws).
Proof.
  intros Hi Ht Ho Hinj Hk K0 F.
  destruct (mapM_then_inv key _ inj _ _ Hk K0) as [ks [E _]].
  destruct (sorted ltb key records) as [in_order|e] eqn:S;
    [|unfold sorted in S; rewrite E in S; discriminate].
  destruct (sorted_spec _ _ _ _ Hi Ht Ho S) as [ks' [P [Ek Sk]]].
  assert (F' : Forall (fun r => exists raw,
                           getitem r (candidate_field s) = Ok (string_list raw))
                      in_order).
  { rewrite Forall_forall in *. intros r Hr. apply F.
    now apply (Permutation_in _ (Permutation_sym P)). }
  destruct (Forall_exists_Forall2 _ _ F') as [raws R].
  exists in_order, (map inj ks'), raws. repeat split.
  - exact P.
  - now apply (mapM_then key).
  - now apply StronglySorted_map with (R := not_after ltb).
  - exact R.
  - cbn [bind]. now apply mapM_cleaned_field_strings.
Qed.

End AlignmentReturns.

(** C7, as the code has it.  For a collection of dicts that is not empty,
    each with the key of its scenario and with a list of strings in the
    candidate field of its scenario, alignment returns: the records are taken
    in ascending order of the key, and of each the candidate field is
    extracted, every entry of it passed through [clean_code_output].  The key
    is [str(question_id)] and the field [code_list] for code generation and
    self repair, the pair [(str(question_id), str(test_id))] and [pred_list]
    for test output prediction, the integer in the second segment of [id] and
    [pred_list] for code execution.  Whenever alignment returns, with fields
    of any kind, what it returns follows the ascending order of the key.  Of
    two records with one question id, the one with the smaller test id comes
    first. *)
Theorem load_custom_outputs_sorts_by_scenario_key (interpreter : Interpreter) :
  (forall s records keys,
      records <> [] -> forallb is_dict records = true ->
      mapM (scenario_key s) records = Ok keys ->
      Forall (fun r => exists raw,
                  getitem r (candidate_field s) = Ok (string_list raw)) records ->
      exists in_order sorted_keys raws,
        Permutation records in_order
        /\ mapM (scenario_key s) in_order = Ok sorted_keys
        /\ StronglySorted (not_after key_ltb) sorted_keys
        /\ Forall2 (fun r raw => getitem r (candidate_field s) = Ok (string_list raw))
                   in_order raws
        /\ load_custom_outputs s (JList records)
           = Ok (map (fun raw => string_list (map clean_code_output raw)) raws))
  /\ (forall s records aligned,
        records <> [] -> forallb is_dict records = true ->
        load_custom_outputs s (JList records) = Ok aligned ->
        exists in_order,
          Permutation records in_order /\ aligned_by_key s in_order aligned)
  /\ (forall r r' q t t' c c',
        is_dict r = true -> is_dict r' = true ->
        question_test_key r = Ok (q, t) -> question_test_key r' = Ok (q, t') ->
        str_ltb t' t = true ->
        cleaned_field (lit "pred_list") r = Ok c ->
        cleaned_field (lit "pred_list") r' = Ok c' ->
        load_custom_outputs testoutputprediction (JList [r; r']) = Ok [c'; c]).
Proof.
  split; [|split].
  - intros s records keys Ne D K F.
    rewrite (load_custom_outputs_dicts s records Ne D).
    destruct s.
    + apply (sorted_branch_aligned str_ltb question_key ByQuestion codegeneration
               records keys str_ltb_irrefl str_ltb_trans str_ltb_total);
        [now intros a b|apply scenario_key_question|exact K|exact F].
    + apply (sorted_branch_aligned str_ltb question_key ByQuestion selfrepair
               records keys str_ltb_irrefl str_ltb_trans str_ltb_total);
        [now intros a b|apply scenario_key_question|exact K|exact F].
    + apply (sorted_branch_aligned pair_ltb question_test_key
               (fun k => ByQuestionTest (fst k) (snd k)) testoutputprediction
               records keys pair_ltb_irrefl pair_ltb_trans pair_ltb_total);
        [now intros [a1 a2] [b1 b2]|apply scenario_key_question_test|exact K|exact F].
    + apply (sorted_branch_aligned Z.ltb execution_key ByNumber codeexecution
               records keys Z.ltb_irrefl Z_ltb_trans Z_ltb_total);
        [now intros a b|apply scenario_key_execution|exact K|exact F].
  - intros s records aligned. apply load_custom_outputs_aligned.
  - intros r r' q t t' c c' D D' K K' L C C'.
    rewrite load_custom_outputs_dicts; [|discriminate|simpl; now rewrite D, D'].
    unfold sorted. simpl. rewrite K, K'. simpl.
    unfold pair_ltb. simpl. rewrite str_eqb_refl, L. simpl.
    now rewrite C', C.
Qed.

Lemma load_custom_outputs_sorts_by_scenario_key_witness :
  (exists in_order sorted_keys raws,
      Permutation generation_records in_order
      /\ mapM (scenario_key (interpreter := example_interpreter) codegeneration) in_order
         = Ok sorted_keys
      /\ StronglySorted (not_after key_ltb) sorted_keys
      /\ Forall2 (fun r raw => getitem r (lit "code_list") = Ok (string_list raw))
                 in_order raws
      /\ load_custom_outputs (interpreter := example_interpreter) codegeneration
           (JList generation_records)
         = Ok (map (fun raw => string_list (map clean_code_output raw)) raws))
  /\ (exists in_order sorted_keys raws,
        Permutation generation_records in_order
        /\ mapM (scenario_key (interpreter := example_interpreter) selfrepair) in_order
           = Ok sorted_keys
        /\ StronglySorted (not_after key_ltb) sorted_keys
        /\ Forall2 (fun r raw => getitem r (lit "code_list") = Ok (string_list raw))
                   in_order raws
        /\ load_custom_outputs (interpreter := example_interpreter) selfrepair
             (JList generation_records)
           = Ok (map (fun raw => string_list (map clean_code_output raw)) raws))
  /\ (exists in_order sorted_keys raws,
        Permutation prediction_records in_order
        /\ mapM (scenario_key (interpreter := example_interpreter) testoutputprediction)
                in_order
           = Ok sorted_keys
        /\ StronglySorted (not_after key_ltb) sorted_keys
        /\ Forall2 (fun r raw => getitem r (lit "pred_list") = Ok (string_list raw))
                   in_order raws
        /\ load_custom_outputs (interpreter := example_interpreter) testoutputprediction
             (JList prediction_records)
           = Ok (map (fun raw => string_list (map clean_code_output raw)) raws))
  /\ (exists in_order sorted_keys raws,
        Permutation execution_records in_order
        /\ mapM (scenario_key (interpreter := example_interpreter) codeexecution) in_order
           = Ok sorted_keys
        /\ StronglySorted (not_after key_ltb) sorted_keys
        /\ Forall2 (fun r raw => getitem r (lit "pred_list") = Ok (string_list raw))
                   in_order raws
        /\ load_custom_outputs (interpreter := example_interpreter) codeexecution
             (JList execution_records)
           = Ok (map (fun raw => string_list (map clean_code_output raw)) raws))
  /\ (exists in_order,
        Permutation execution_records in_order
        /\ aligned_by_key (interpreter := example_interpreter) codeexecution in_order
             [strs ["a"]; strs ["b"]; strs ["c"]])
  /\ load_custom_outputs (interpreter := example_interpreter) testoutputprediction
       (JList prediction_records)
     = Ok [strs ["a"]; strs ["b"]]
  /\ load_custom_outputs (interpreter := example_interpreter) codegeneration
       (JList generation_records)
     = Ok [strs ["x=1"]; strs ["x=2"]]
  /\ load_custom_outputs (interpreter := example_interpreter) selfrepair
       (JList generation_records)
     = Ok [strs ["x=1"]; strs ["x=2"]]
  /\ load_custom_outputs (interpreter := example_interpreter) codeexecution
       (JList execution_records)
     = Ok [strs ["a"]; strs ["b"]; strs ["c"]].
Proof.
  pose proof (load_custom_outputs_sorts_by_scenario_key example_interpreter)
    as [returns [ordered tie_break]].
  split; [|split; [|split; [|split; [|split; [|split; [|repeat split]]]]]].
  - eapply (returns codegeneration generation_records);
      [discriminate|reflexivity|reflexivity|].
    apply Forall_cons; [now exists [lit "x=2"]|].
    apply Forall_cons; [now exists [lit " x=1 "]|apply Forall_nil].
  - eapply (returns selfrepair generation_records);
      [discriminate|reflexivity|reflexivity|].
    apply Forall_cons; [now exists [lit "x=2"]|].
    apply Forall_cons; [now exists [lit " x=1 "]|apply Forall_nil].
  - eapply (returns testoutputprediction prediction_records);
      [discriminate|reflexivity|reflexivity|].
    apply Forall_cons; [now exists [lit "b"]|].
    apply Forall_cons; [now exists [lit "a"]|apply Forall_nil].
  - eapply (returns codeexecution execution_records);
      [discriminate|reflexivity|reflexivity|].
    apply Forall_cons; [now exists [lit "b"]|].
    apply Forall_cons; [now exists [lit "c "]|].
    apply Forall_cons; [now exists [lit "a"]|apply Forall_nil].
  - apply (ordered codeexecution execution_records);
      [discriminate|reflexivity|reflexivity].
  - apply (tie_break _ _ (lit "A") (lit "2") (lit "1")); reflexivity.
Defined.

(** C7, as stated, fails on what is extracted: the aligned sequence holds
    the entries of the candidate field passed through [clean_code_output],
    not the entries as the record has them.  It fails as well for a
    collection of no records, on which alignment raises at
    [custom_outputs[0]]. *)
Lemma load_custom_outputs_cleans_the_field :
  getitem (obj [("question_id", text "A"); ("code_list", strs [" x=1 "])])
          (lit "code_list")
  = Ok (strs [" x=1 "])
  /\ load_custom_outputs (interpreter := example_interpreter) codegeneration
       (JList [obj [("question_id", text "A"); ("code_list", strs [" x=1 "])]])
     = Ok [strs ["x=1"]]
  /\ strs ["x=1"] <> strs [" x=1 "]
  /\ load_custom_outputs (interpreter := example_interpreter) codegeneration (JList [])
     = Raise IndexError.
Proof.
  split; [reflexivity|split; [reflexivity|split; [discriminate|reflexivity]]].
Qed.

(** With no instance, a run on one list of candidates does not end as the
    run on none: on no list alignment raises at [custom_outputs[0]], on one
    list the run ends and pairs nothing. *)
Example main_no_instances :
  main (interpreter := example_interpreter) (collaborators := example_collaborators)
    (example_args selfrepair) [] (JList [])
  = Raise IndexError
  /\ exists written,
       main (interpreter := example_interpreter) (collaborators := example_collaborators)
         (example_args selfrepair) [] (JList [strs ["x=1"]])
       = Ok written
       /\ snd (results_file written) = [].
Proof.
  split; [reflexivity|]. eexists. split; reflexivity.
Qed.
